(** * raml-to-markdown: the parser/normalizer and the render dispatcher

    A shallow embedding of [src/libs/index.js] (the [parse] and [render]
    operations, their default configuration) together with the external
    collaborators they call.  JavaScript strings are sequences of UTF-16
    code units, promises are modelled by their settled outcome, and the
    file system by a directory tree. *)

From Stdlib Require Import ZArith NArith List Ascii String Bool Lia.
From Stdlib Require Import Sorted Permutation.
Import ListNotations.

Set Implicit Arguments.
Set Warnings "-register-all".
Local Open Scope list_scope.

(** ** JavaScript strings and values *)

(** A JavaScript string is a finite sequence of UTF-16 code units. *)
Definition jsstring : Type := list N.

Definition code_unit (c : ascii) : N := N_of_ascii c.

(** [lit s] is the JavaScript string whose code units are the characters
    of the (ASCII) Rocq string [s]. *)
Fixpoint lit (s : string) : jsstring :=
  match s with
  | EmptyString => []
  | String c s' => code_unit c :: lit s'
  end.

Fixpoint jsstring_eqb (a b : jsstring) : bool :=
  match a, b with
  | [], [] => true
  | x :: a', y :: b' => N.eqb x y && jsstring_eqb a' b'
  | _, _ => false
  end.

(** ToString applied to a possibly missing string field, as in
    [res.displayName + outputExt]. *)
Definition to_string (v : option jsstring) : jsstring :=
  match v with
  | Some s => s
  | None => lit "undefined"
  end.

(** The failure kinds a promise of this program can reject with. *)
Inductive exn : Type :=
| TypeError
| NotFoundError
| ParseError
| TemplateError
| IOError.

(** Outcome of a computation that may throw (or of a settled promise:
    [Ok] is resolution, [Throw] is rejection). *)
Inductive result (A : Type) : Type :=
| Ok (a : A)
| Throw (e : exn).
Arguments Ok {A} a.
Arguments Throw {A} e.

Definition bind {A B} (m : result A) (k : A -> result B) : result B :=
  match m with
  | Ok a => k a
  | Throw e => Throw e
  end.

Notation "x <- m ;; k" := (bind m (fun x => k))
  (at level 61, m at next level, right associativity).

(** ** Data model *)

(** Identity of a JavaScript array object. *)
Abbreviation loc := nat (only parsing).

(** A property descriptor; every descriptor has a [displayName]. *)
Record property : Type := Property {
  prop_displayName : jsstring;
  prop_extra : jsstring
}.

(** The [items] sub-object of a node, with its optional [properties]. *)
Record items_obj : Type := Items {
  items_properties : option (list property)
}.

(** A node of a parsed document: the document itself, a resource, a
    method, a response or a body.  [resources] is [None] when the field is
    absent, otherwise the array object (with its identity) and its
    elements; the other three containers are only ever read by the
    recursive walk, for which an absent field and an empty array are the
    same.  [extra] stands for all further fields, which only the template
    engine reads. *)
Inductive node : Type := Node {
  displayName : option jsstring;
  uniqueId : option jsstring;
  properties : option (list property);
  items : option items_obj;
  resources : option (loc * list node);
  methods : list node;
  responses : list node;
  body : list node;
  extra : jsstring
}.

Definition set_properties (n : node) (ps : option (list property)) : node :=
  Node (displayName n) (uniqueId n) ps (items n) (resources n)
       (methods n) (responses n) (body n) (extra n).

Definition set_items (n : node) (it : option items_obj) : node :=
  Node (displayName n) (uniqueId n) (properties n) it (resources n)
       (methods n) (responses n) (body n) (extra n).

Definition set_resources (n : node) (rs : option (loc * list node)) : node :=
  Node (displayName n) (uniqueId n) (properties n) (items n) rs
       (methods n) (responses n) (body n) (extra n).

(** The container keys of the recursive walk. *)
Inductive key : Type := Kresources | Kmethods | Kresponses | Kbody.

Definition resources_list (n : node) : list node :=
  match resources n with
  | Some (_, xs) => xs
  | None => []
  end.

Definition children (k : key) (n : node) : list node :=
  match k with
  | Kresources => resources_list n
  | Kmethods => methods n
  | Kresponses => responses n
  | Kbody => body n
  end.

Definition set_children (k : key) (n : node) (xs : list node) : node :=
  match n with
  | Node dn uid ps its rs ms rps bs ex =>
    match k with
    | Kresources =>
      match rs with
      | Some (l, _) => Node dn uid ps its (Some (l, xs)) ms rps bs ex
      | None => n
      end
    | Kmethods => Node dn uid ps its rs xs rps bs ex
    | Kresponses => Node dn uid ps its rs ms xs bs ex
    | Kbody => Node dn uid ps its rs ms rps xs ex
    end
  end.

(** ** Array.prototype.sort *)

(** [Array.prototype.sort] with a comparison function.  ECMAScript (2019
    and later) requires the sort to be stable, and for a consistent
    comparison function the result is the unique stable sorted
    permutation, whatever algorithm the engine uses; the model is the
    stable insertion sort.  [a] goes before [b] when [cmp a b <= 0] and
    [a] was before [b]. *)
Fixpoint sort_insert {A} (cmp : A -> A -> Z) (x : A) (l : list A) : list A :=
  match l with
  | [] => [x]
  | h :: t => if (cmp x h <=? 0)%Z then x :: h :: t
              else h :: sort_insert cmp x t
  end.

Fixpoint array_sort {A} (cmp : A -> A -> Z) (l : list A) : list A :=
  match l with
  | [] => []
  | x :: t => sort_insert cmp x (array_sort cmp t)
  end.

(** [a] may stand before [b]. *)
Definition cmp_le {A} (cmp : A -> A -> Z) (a b : A) : Prop := (cmp a b <= 0)%Z.

(** A comparison function is consistent when it induces a total
    preorder. *)
Record consistent {A} (cmp : A -> A -> Z) : Prop := {
  cmp_total : forall a b, (0 < cmp a b)%Z -> (cmp b a <= 0)%Z;
  cmp_trans : forall a b c,
    (cmp a b <= 0)%Z -> (cmp b c <= 0)%Z -> (cmp a c <= 0)%Z
}.

(** ** The file system *)

(** The file system is a tree: a regular file with its content, or a
    directory with its named entries in listing order.  A resolved path is
    the list of entry names leading from the root. *)
Inductive fsnode : Type :=
| FFile (content : jsstring)
| FDir (entries : list (jsstring * fsnode)).

Definition path : Type := list jsstring.

Fixpoint entry_lookup (name : jsstring) (es : list (jsstring * fsnode))
  : option fsnode :=
  match es with
  | [] => None
  | (n, t) :: rest =>
    if jsstring_eqb name n then Some t else entry_lookup name rest
  end.

(** Replaces the entry called [name], or appends it when there is none. *)
Fixpoint entry_set (name : jsstring) (t : fsnode)
  (es : list (jsstring * fsnode)) : list (jsstring * fsnode) :=
  match es with
  | [] => [(name, t)]
  | (n, t0) :: rest =>
    if jsstring_eqb name n then (n, t) :: rest
    else (n, t0) :: entry_set name t rest
  end.

Fixpoint fs_lookup (root : fsnode) (p : path) : option fsnode :=
  match p with
  | [] => Some root
  | name :: p' =>
    match root with
    | FDir es =>
      match entry_lookup name es with
      | Some t => fs_lookup t p'
      | None => None
      end
    | FFile _ => None
    end
  end.

(** [fs.existsSync]. *)
Definition existsSync (root : fsnode) (p : path) : bool :=
  match fs_lookup root p with
  | Some _ => true
  | None => false
  end.

(** [fs.writeFileSync]: creates or overwrites the regular file at [p];
    fails when [p] is a directory or when the parent of [p] is not an
    existing directory. *)
Fixpoint writeFileSync (root : fsnode) (p : path) (data : jsstring)
  : result fsnode :=
  match p with
  | [] => Throw IOError
  | name :: p' =>
    match root with
    | FFile _ => Throw IOError
    | FDir es =>
      match p' with
      | [] =>
        match entry_lookup name es with
        | Some (FDir _) => Throw IOError
        | _ => Ok (FDir (entry_set name (FFile data) es))
        end
      | _ :: _ =>
        match entry_lookup name es with
        | Some t =>
          t' <- writeFileSync t p' data ;;
          Ok (FDir (entry_set name t' es))
        | None => Throw IOError
        end
      end
    end
  end.

(** Modelled from the spec: [helper.mkdirp] ([src/libs/helper.js] is not
    part of the sources).  Given the path of a file about to be written it
    creates, recursively, every missing parent directory of that path; it
    fails when a parent exists as a regular file. *)
Fixpoint mkdirs (root : fsnode) (dir : path) : result fsnode :=
  match dir with
  | [] =>
    match root with
    | FDir _ => Ok root
    | FFile _ => Throw IOError
    end
  | name :: dir' =>
    match root with
    | FFile _ => Throw IOError
    | FDir es =>
      let sub := match entry_lookup name es with
                 | Some t => t
                 | None => FDir []
                 end in
      sub' <- mkdirs sub dir' ;;
      Ok (FDir (entry_set name sub' es))
    end
  end.

Definition mkdirp (root : fsnode) (file : path) : result fsnode :=
  mkdirs root (removelast file).

(** ** Regular expressions and string literals *)

(** The evaluation of a JavaScript string literal, given by the source
    text between its quotes: a backslash followed by one of [n r t b f v 0]
    is a control character and a backslash followed by any other character
    is that character ([x], [u] and digits other than [0] do not occur in
    this program's literals). *)
Definition escaped (c : ascii) : N :=
  match c with
  | "n"%char => 10
  | "r"%char => 13
  | "t"%char => 9
  | "b"%char => 8
  | "f"%char => 12
  | "v"%char => 11
  | "0"%char => 0
  | _ => code_unit c
  end%N.

Fixpoint js_string_literal (src : string) : jsstring :=
  match src with
  | EmptyString => []
  | String "\"%char (String c rest) => escaped c :: js_string_literal rest
  | String c rest => code_unit c :: js_string_literal rest
  end.

(** The fragment of regular expressions this program uses: a sequence of
    atoms, each matching one code unit, optionally anchored at the end of
    the input by a final [$]. *)
Inductive atom : Type :=
| AnyChar
| Lit (c : N).

Record RegExp : Type := {
  re_atoms : list atom;
  re_end : bool
}.

Definition syntax_char (c : N) : bool :=
  existsb (N.eqb c) (lit "^$\.*+?()[]{}|/").

(** [new RegExp(pattern)] on that fragment; [None] for a pattern outside
    it. *)
Fixpoint parse_pattern (p : jsstring) : option RegExp :=
  let cons_atom a r :=
    match r with
    | Some re => Some {| re_atoms := a :: re_atoms re; re_end := re_end re |}
    | None => None
    end in
  match p with
  | [] => Some {| re_atoms := []; re_end := false |}
  | c :: rest =>
    if N.eqb c (code_unit "$") then
      match rest with
      | [] => Some {| re_atoms := []; re_end := true |}
      | _ :: _ => None
      end
    else if N.eqb c (code_unit ".") then cons_atom AnyChar (parse_pattern rest)
    else if N.eqb c (code_unit "\") then
      match rest with
      | e :: rest' =>
        if syntax_char e then cons_atom (Lit e) (parse_pattern rest')
        else None
      | [] => None
      end
    else if syntax_char c then None
    else cons_atom (Lit c) (parse_pattern rest)
  end.

(** Line terminators, which [.] does not match. *)
Definition line_terminator (c : N) : bool :=
  (N.eqb c 10 || N.eqb c 13 || N.eqb c 8232 || N.eqb c 8233)%N.

Definition atom_matches (a : atom) (c : N) : bool :=
  match a with
  | AnyChar => negb (line_terminator c)
  | Lit d => N.eqb c d
  end.

(** Does the pattern match a prefix of [s] (the whole of [s] when
    anchored)? *)
Fixpoint match_here (atoms : list atom) (anchored : bool) (s : jsstring)
  : bool :=
  match atoms with
  | [] => if anchored then match s with [] => true | _ => false end else true
  | a :: atoms' =>
    match s with
    | c :: s' => atom_matches a c && match_here atoms' anchored s'
    | [] => false
    end
  end.

(** [RegExp.prototype.test]: is there a match starting at some index? *)
Fixpoint regexp_test (re : RegExp) (s : jsstring) : bool :=
  match_here (re_atoms re) (re_end re) s ||
  match s with
  | [] => false
  | _ :: s' => regexp_test re s'
  end.

(** ** External collaborators *)

(** The services the program consumes: locale collation
    ([String.prototype.localeCompare]), the [path] module, the RAML parser,
    the template engine, the directory of the module ([__dirname]), and
    the JavaScript engine where ECMAScript leaves it a choice:
    [engine_sort] is the order in which [Array.prototype.sort] leaves an
    array of resources when the comparison function of the versioning
    branch is not consistent on its elements.  That order is
    implementation-defined; the elements are the same. *)
Record Env : Type := {
  localeCompare : jsstring -> jsstring -> Z;
  path_resolve : jsstring -> path;
  path_join : path -> jsstring -> path;
  raml2obj_parse : jsstring -> result node;
  nunjucks_render : path -> node -> result jsstring;
  dirname : jsstring;
  engine_sort : list node -> list node;
  engine_sort_perm : forall es, Permutation es (engine_sort es)
}.

(** ** Configuration *)

Inductive OutputType : Type := ReturnOnly | StdOut | File.

Inductive FileSplitting : Type :=
| AllInOne
| OnePerResource
| OnePerResourceVersioning.

(** [input.fileFilter] is a regular expression or a predicate. *)
Inductive file_filter : Type :=
| FilterRegExp (re : RegExp)
| FilterFunction (f : jsstring -> bool).

(** What an output content filter may return: a string, or one of the
    falsy values other than the empty string. *)
Inductive filtered : Type :=
| FUndefined
| FNull
| FFalse
| FZero
| FNaN
| FString (s : jsstring).

Definition truthy (v : filtered) : bool :=
  match v with
  | FString (_ :: _) => true
  | _ => false
  end.

Record config : Type := {
  input_paths : list jsstring;
  input_recursive : bool;
  input_fileFilter : file_filter;
  input_templateFile : jsstring;
  input_homeTemplateFile : option jsstring;
  input_contentFilter : option (node -> node);
  output_type : OutputType;
  output_file_splitting : FileSplitting;
  output_file_path : option jsstring;
  output_file_extension : jsstring;
  output_contentFilter : option (jsstring -> filtered)
}.

(** The caller's partial configuration: [None] is an omitted field; the
    fields that accept [null] hold an option themselves. *)
Record user_config : Type := {
  u_paths : option (list jsstring);
  u_recursive : option bool;
  u_fileFilter : option file_filter;
  u_templateFile : option jsstring;
  u_homeTemplateFile : option jsstring;
  u_input_contentFilter : option (option (node -> node));
  u_type : option OutputType;
  u_splitting : option FileSplitting;
  u_path : option (option jsstring);
  u_extension : option jsstring;
  u_output_contentFilter : option (option (jsstring -> filtered))
}.

(** [item.replace(/\n{3,}/g, "\n\n")]: every maximal run of three or more
    line feeds becomes two line feeds.  [run] counts the line feeds read
    and not yet emitted. *)
Definition flush_run (run : nat) : jsstring :=
  if Nat.leb 3 run then [10; 10]%N else repeat 10%N run.

Fixpoint collapse_newlines (run : nat) (s : jsstring) : jsstring :=
  match s with
  | [] => flush_run run
  | c :: s' =>
    if N.eqb c 10 then collapse_newlines (S run) s'
    else flush_run run ++ c :: collapse_newlines 0 s'
  end.

(** The regular expression [new RegExp('\.raml$')] of the default
    configuration: the pattern is the value of the string literal, in which
    the backslash has already been consumed. *)
Definition default_fileFilter : RegExp :=
  {| re_atoms := [AnyChar; Lit (code_unit "r"); Lit (code_unit "a");
                  Lit (code_unit "m"); Lit (code_unit "l")];
     re_end := true |}.

Definition DefaultConfig (env : Env) : config :=
  {| input_paths := [];
     input_recursive := false;
     input_fileFilter := FilterRegExp default_fileFilter;
     input_templateFile := dirname env ++ lit "/../templates/index.njk";
     input_homeTemplateFile := None;
     input_contentFilter := None;
     output_type := ReturnOnly;
     output_file_splitting := AllInOne;
     output_file_path := None;
     output_file_extension := lit ".md";
     output_contentFilter :=
       Some (fun item => FString (collapse_newlines 0 item)) |}.

Definition or_default {A} (o : option A) (d : A) : A :=
  match o with
  | Some a => a
  | None => d
  end.

(** [extend(true, { }, DefaultConfig, config)]: every field the caller
    gives overrides the default. *)
Definition extend (d : config) (u : user_config) : config :=
  {| input_paths := or_default (u_paths u) (input_paths d);
     input_recursive := or_default (u_recursive u) (input_recursive d);
     input_fileFilter := or_default (u_fileFilter u) (input_fileFilter d);
     input_templateFile := or_default (u_templateFile u) (input_templateFile d);
     input_homeTemplateFile :=
       match u_homeTemplateFile u with
       | Some t => Some t
       | None => input_homeTemplateFile d
       end;
     input_contentFilter :=
       or_default (u_input_contentFilter u) (input_contentFilter d);
     output_type := or_default (u_type u) (output_type d);
     output_file_splitting :=
       or_default (u_splitting u) (output_file_splitting d);
     output_file_path := or_default (u_path u) (output_file_path d);
     output_file_extension :=
       or_default (u_extension u) (output_file_extension d);
     output_contentFilter :=
       or_default (u_output_contentFilter u) (output_contentFilter d) |}.

(** The empty caller configuration [{ }]. *)
Definition no_config : user_config :=
  {| u_paths := None; u_recursive := None; u_fileFilter := None;
     u_templateFile := None; u_homeTemplateFile := None;
     u_input_contentFilter := None; u_type := None; u_splitting := None;
     u_path := None; u_extension := None; u_output_contentFilter := None |}.

(** The predicate [parse] hands to the file lister: a filter whose
    [typeof] is ['object'] is wrapped into [path => fileFilter.test(path)]. *)
Definition fileFilter_predicate (f : file_filter) : jsstring -> bool :=
  match f with
  | FilterRegExp re => fun p => regexp_test re p
  | FilterFunction g => g
  end.

(** ** Helpers *)

(** Modelled from the spec: [helper.unwindArray] ([src/libs/helper.js] is
    not part of the sources) flattens a sequence of sequences, outer order
    then inner order. *)
Definition unwindArray {A} (xss : list (list A)) : list A := List.concat xss.

(** Modelled from the spec: [helper.listFiles] (same missing file).  A
    missing path is a not-found failure; a file is listed when the filter
    accepts it; a directory lists its entries, descending into a
    sub-directory only when [recursive]. *)
Fixpoint list_tree (recursive : bool) (filter : jsstring -> bool)
  (p : jsstring) (t : fsnode) : list jsstring :=
  match t with
  | FFile _ => if filter p then [p] else []
  | FDir es =>
    (fix entries (es : list (jsstring * fsnode)) : list jsstring :=
       match es with
       | [] => []
       | (name, sub) :: rest =>
         let child := p ++ lit "/" ++ name in
         match sub with
         | FFile _ => if filter child then [child] else []
         | FDir _ =>
           if recursive then list_tree recursive filter child sub else []
         end ++ entries rest
       end) es
  end.

Definition listFiles (env : Env) (root : fsnode) (p : jsstring)
  (recursive : bool) (filter : jsstring -> bool) : result (list jsstring) :=
  match fs_lookup root (path_resolve env p) with
  | None => Throw NotFoundError
  | Some t => Ok (list_tree recursive filter p t)
  end.

(** Modelled from the spec: [helper.map] (same missing file) maps a
    callback over a sequence, in order.  The callbacks of this program may
    throw (or return a promise that rejects); the first failure wins. *)
Definition mapM {A B} (f : A -> result B) : list A -> result (list B) :=
  fix mapM (xs : list A) : result (list B) :=
    match xs with
    | [] => Ok []
    | x :: t => y <- f x ;; ys <- mapM t ;; Ok (y :: ys)
    end.

(** Modelled from the spec: [helper.recursiveEach] (same missing file), a
    generic tree walk over a list of child keys.  Every node of the
    sequence is handed to the callback, then the walk descends into each of
    the node's containers named by [keys]; an absent container has nothing
    to visit.  The callback updates the node in place and leaves its
    containers alone, so the walk descends the containers of the node it
    was given. *)
Fixpoint recursiveEach_node (keys : list key) (callback : node -> result node)
  (n : node) {struct n} : result node :=
  n1 <- callback n ;;
  (fix each_key (ks : list key) (acc : node) : result node :=
     match ks with
     | [] => Ok acc
     | k :: ks' =>
       kids <- match k with
               | Kresources =>
                 match resources n with
                 | Some (_, xs) => mapM (recursiveEach_node keys callback) xs
                 | None => Ok []
                 end
               | Kmethods => mapM (recursiveEach_node keys callback) (methods n)
               | Kresponses =>
                 mapM (recursiveEach_node keys callback) (responses n)
               | Kbody => mapM (recursiveEach_node keys callback) (body n)
               end ;;
       each_key ks' (set_children k acc kids)
     end) keys n1.

Definition recursiveEach (objs : list node) (keys : list key)
  (callback : node -> result node) : result (list node) :=
  mapM (recursiveEach_node keys callback) objs.

(** ** parse *)

Definition deepKeys : list key := [Kresources; Kmethods; Kresponses; Kbody].

Definition compare_properties (env : Env) (a b : property) : Z :=
  localeCompare env (prop_displayName a) (prop_displayName b).

(** The per-node callback of [parse]:
    [var props = body.properties || body.items.properties;
     if(props) props.sort(...)].
    Reading [properties] of a missing [items] is a [TypeError]. *)
Definition parse_callback (env : Env) (body : node) : result node :=
  match properties body with
  | Some props =>
    Ok (set_properties body (Some (array_sort (compare_properties env) props)))
  | None =>
    match items body with
    | None => Throw TypeError
    | Some it =>
      match items_properties it with
      | Some props =>
        Ok (set_items body
              (Some (Items (Some (array_sort (compare_properties env) props)))))
      | None => Ok body
      end
    end
  end.

(** The promise [Promise.all(helper.map(config.input.paths, ...))] of
    [parse].  The listing of every input path happens synchronously; a
    listing that throws yields an already rejected promise, so the first
    such failure (in path order) is the one [Promise.all] rejects with,
    before any parser promise settles.  When several files fail to parse,
    the model reports the first in order. *)
Definition parse_load (env : Env) (root : fsnode) (config : config)
  : result (list (list node)) :=
  listings <-
    mapM (fun path =>
            listFiles env root path (input_recursive config)
              (fileFilter_predicate (input_fileFilter config)))
         (input_paths config) ;;
  mapM (fun files => mapM (raml2obj_parse env) files) listings.

(** [var relaxed = helper.unwindArray(items);
     relaxed = (contentFilter && relaxed.map(contentFilter)) || relaxed]. *)
Definition relax (contentFilter : option (node -> node))
  (items : list (list node)) : list node :=
  let relaxed := unwindArray items in
  match contentFilter with
  | Some f => map f relaxed
  | None => relaxed
  end.

(** The callback of [.then(items => ...)]. *)
Definition parse_then (env : Env) (config : config) (items : list (list node))
  : result (list node) :=
  let relaxed := relax (input_contentFilter config) items in
  recursiveEach relaxed deepKeys (parse_callback env).

(** [parse(config)]. *)
Definition parse (env : Env) (root : fsnode) (u : user_config)
  : result (list node) :=
  let config := extend (DefaultConfig env) u in
  items <- parse_load env root config ;;
  parse_then env config items.

(** ** render *)

(** What a call of [render] can observe and change: the file system, what
    was written to standard output, and the next fresh array identity. *)
Record world : Type := World {
  w_fs : fsnode;
  w_stdout : list jsstring;
  w_next : loc
}.

(** A step of the dispatcher: it may throw, and it changes the world. *)
Definition M (A : Type) : Type := world -> result A * world.

Definition ret {A} (a : A) : M A := fun w => (Ok a, w).

Definition mbind {A B} (m : M A) (k : A -> M B) : M B :=
  fun w =>
    match m w with
    | (Ok a, w') => k a w'
    | (Throw e, w') => (Throw e, w')
    end.

Notation "x <~ m ;; k" := (mbind m (fun x => k))
  (at level 61, m at next level, right associativity).

Definition lift {A} (r : result A) : M A := fun w => (r, w).

(** Evaluating an array literal allocates a fresh array object. *)
Definition alloc : M loc :=
  fun w => (Ok (w_next w), World (w_fs w) (w_stdout w) (S (w_next w))).

Definition stdout_write (data : jsstring) : M unit :=
  fun w => (Ok tt, World (w_fs w) (w_stdout w ++ [data]) (w_next w)).

(** The statements every file output site repeats:
    [if(!fs.existsSync(p)) helper.mkdirp(p); fs.writeFileSync(p, data)]. *)
Definition write_file (p : path) (data : jsstring) : M unit :=
  fun w =>
    match (if existsSync (w_fs w) p then Ok (w_fs w)
           else mkdirp (w_fs w) p) with
    | Throw e => (Throw e, w)
    | Ok fs1 =>
      match writeFileSync fs1 p data with
      | Throw e => (Throw e, World fs1 (w_stdout w) (w_next w))
      | Ok fs2 => (Ok tt, World fs2 (w_stdout w) (w_next w))
      end
    end.

(** Modelled from the spec: [helper.each] ([src/libs/helper.js] is not
    part of the sources) calls its callback on every element of a
    sequence, in order; a missing sequence has no element.  [each] is the
    iteration whose body updates the element it is given, [each_with] the
    one whose body updates an object captured from outside. *)
Fixpoint each {A} (xs : list A) (f : A -> M A) : M (list A) :=
  match xs with
  | [] => ret []
  | x :: t => x' <~ f x ;; t' <~ each t f ;; ret (x' :: t')
  end.

Fixpoint each_with {A S} (xs : list A) (f : S -> A -> M S) (s : S) : M S :=
  match xs with
  | [] => ret s
  | x :: t => s' <~ f s x ;; each_with t f s'
  end.

(** [Array.prototype.join] on an array of strings. *)
Fixpoint join (sep : jsstring) (xs : list jsstring) : jsstring :=
  match xs with
  | [] => []
  | x :: t =>
    match t with
    | [] => x
    | _ :: _ => x ++ sep ++ join sep t
    end
  end.

Definition string_of (v : filtered) : jsstring :=
  match v with
  | FString s => s
  | _ => []
  end.

(** [(contentFilter && contentFilter(rendered)) || rendered]. *)
Definition filter_output (contentFilter : option (jsstring -> filtered))
  (rendered : jsstring) : jsstring :=
  match contentFilter with
  | None => rendered
  | Some f =>
    let v := f rendered in
    if truthy v then string_of v else rendered
  end.

(** [a.displayName[0]]: [undefined] for the empty string. *)
Definition first_char (n : node) : option N :=
  match displayName n with
  | Some (c :: _) => Some c
  | _ => None
  end.

(** [x < y] on two such values: code unit order on two characters, false
    as soon as one side is [undefined]. *)
Definition char_lt (x y : option N) : bool :=
  match x, y with
  | Some a, Some b => N.ltb a b
  | _, _ => false
  end.

(** The comparison function of the versioning branch. *)
Definition compare_first_char (a b : node) : Z :=
  if char_lt (first_char a) (first_char b) then (-1)%Z
  else if char_lt (first_char b) (first_char a) then 1%Z
  else 0%Z.

Definition has_displayName (n : node) : bool :=
  match displayName n with
  | Some _ => true
  | None => false
  end.

(** Is the comparison function a consistent order on [es]?  It is when
    every name has a first character.  An empty name compares as equal to
    every other name, so with one among them the function is consistent
    only when no two elements compare as different. *)
Definition orders_consistently (es : list node) : bool :=
  forallb (fun e => match first_char e with
                    | Some _ => true
                    | None => false
                    end) es
  || forallb (fun a =>
                forallb (fun b => Z.eqb (compare_first_char a b) 0) es) es.

(** [versionEndpoints.sort(...)]: the comparison function is called as soon
    as there are two elements, and reading [displayName[0]] of a resource
    without [displayName] is a [TypeError].  Where the comparison function
    is consistent the result is the stable sorted arrangement; where it is
    not, the arrangement is the engine's. *)
Definition sort_endpoints (env : Env) (es : list node) : result (list node) :=
  match es with
  | _ :: _ :: _ =>
    if forallb has_displayName es then
      Ok (if orders_consistently es then array_sort compare_first_char es
          else engine_sort env es)
    else Throw TypeError
  | _ => Ok es
  end.

(** One turn of [for (const version of item.resources)]. *)
Definition sort_version (env : Env) (version : node) : result node :=
  match resources version with
  | None => Ok version
  | Some (_, []) => Ok version
  | Some (l, es) =>
    es' <- sort_endpoints env es ;;
    Ok (set_resources version (Some (l, es')))
  end.

(** The whole loop; a document without [resources] is not iterable. *)
Definition sort_versions (env : Env) (item : node) : result node :=
  match resources item with
  | None => Throw TypeError
  | Some (l, versions) =>
    versions' <- mapM (sort_version env) versions ;;
    Ok (set_resources item (Some (l, versions')))
  end.

(** The settings [render] reads off the merged configuration.  In
    [x && pathJs.resolve(x)] a [null] stays [null]; an empty home template
    name is falsy and means no home page; an empty output path stays the
    empty string, which the [path] module and the file system read as the
    current directory, as [pathJs.resolve] does. *)
Record settings : Type := {
  templateFile : path;
  homeTemplateFile : option path;
  contentFilter : option (jsstring -> filtered);
  outputPath : option path;
  outputExt : jsstring;
  outputType : OutputType;
  outputSplitting : FileSplitting
}.

Definition settings_of (env : Env) (c : config) : settings :=
  {| templateFile := path_resolve env (input_templateFile c);
     homeTemplateFile :=
       match input_homeTemplateFile c with
       | Some (ch :: s) => Some (path_resolve env (ch :: s))
       | _ => None
       end;
     contentFilter := output_contentFilter c;
     outputPath :=
       match output_file_path c with
       | Some p => Some (path_resolve env p)
       | None => None
       end;
     outputExt := output_file_extension c;
     outputType := output_type c;
     outputSplitting := output_file_splitting c |}.

(** [pathJs.join(outputPath, name)]; a [null] output path is a
    [TypeError]. *)
Definition output_file (env : Env) (st : settings) (name : jsstring)
  : result path :=
  match outputPath st with
  | Some dir => Ok (path_join env dir name)
  | None => Throw TypeError
  end.

(** Rendering one document and filtering the text, as in the callbacks of
    [helper.map(files, ...)]. *)
Definition render_item (env : Env) (st : settings) (item : node)
  : result jsstring :=
  rendered <- nunjucks_render env (templateFile st) item ;;
  Ok (filter_output (contentFilter st) rendered).

(** The body shared by the two per-resource loops: the document's
    [resources] becomes the fresh array [[ res ]], the document is rendered
    and the text written to the file called [name]. *)
Definition resource_page (env : Env) (st : settings) (name : jsstring)
  (item res : node) : M node :=
  l <~ alloc ;;
  let item := set_resources item (Some (l, [res])) in
  rendered <~ lift (nunjucks_render env (templateFile st) item) ;;
  let rendered := filter_output (contentFilter st) rendered in
  filePath <~ lift (output_file env st name) ;;
  _ <~ write_file filePath rendered ;;
  ret item.

Definition one_per_resource (env : Env) (st : settings) (item : node)
  : M node :=
  each_with (resources_list item)
    (fun item res =>
       resource_page env st (to_string (displayName res) ++ outputExt st)
         item res)
    item.

Definition home_page (env : Env) (st : settings) (item : node) : M unit :=
  match homeTemplateFile st with
  | None => ret tt
  | Some homeTemplateFile =>
    renderedVersion <~ lift (nunjucks_render env homeTemplateFile item) ;;
    let renderedVersion := filter_output (contentFilter st) renderedVersion in
    filePathVersion <~ lift (output_file env st (lit "Home" ++ outputExt st)) ;;
    write_file filePathVersion renderedVersion
  end.

Definition version_pages (env : Env) (st : settings) (item : node) : M node :=
  each_with (resources_list item)
    (fun item version =>
       each_with (resources_list version)
         (fun item res =>
            resource_page env st
              (to_string (displayName res) ++ lit "_" ++
               to_string (uniqueId version) ++ outputExt st)
              item res)
         item)
    item.

Definition one_per_resource_versioning (env : Env) (st : settings)
  (item : node) : M node :=
  item <~ lift (sort_versions env item) ;;
  _ <~ home_page env st item ;;
  version_pages env st item.

Definition separator : jsstring := js_string_literal "\n\n\n".

(** The callback of [this.parse(config).then(files => ...)]: the files
    after the branch has run, and the value the promise resolves to
    ([None] is [undefined]). *)
Definition dispatch (env : Env) (st : settings) (files : list node)
  : M (list node * option jsstring) :=
  match outputType st with
  | File =>
    match outputSplitting st with
    | AllInOne =>
      rendered <~ lift (mapM (render_item env st) files) ;;
      outputPath <~ lift (match outputPath st with
                          | Some p => Ok p
                          | None => Throw TypeError
                          end) ;;
      _ <~ write_file outputPath (join separator rendered) ;;
      ret (files, None)
    | OnePerResource =>
      files' <~ each files (one_per_resource env st) ;;
      ret (files', None)
    | OnePerResourceVersioning =>
      files' <~ each files (one_per_resource_versioning env st) ;;
      ret (files', None)
    end
  | ReturnOnly =>
    rendered <~ lift (mapM (render_item env st) files) ;;
    ret (files, Some (join separator rendered))
  | StdOut =>
    rendered <~ lift (mapM (render_item env st) files) ;;
    _ <~ stdout_write (join separator rendered) ;;
    ret (files, None)
  end.

(** [render(config)]. *)
Definition render (env : Env) (u : user_config) : M (option jsstring) :=
  fun w =>
    let config := extend (DefaultConfig env) u in
    match parse env (w_fs w) u with
    | Throw e => (Throw e, w)
    | Ok files =>
      match dispatch env (settings_of env config) files w with
      | (Ok (_, result), w') => (Ok result, w')
      | (Throw e, w') => (Throw e, w')
      end
    end.

(** ** Specification vocabulary *)

(** [reachable n m]: [m] is [n] or is found below [n] through the
    containers [resources], [methods], [responses] and [body]. *)
Inductive reachable : node -> node -> Prop :=
| reach_here n : reachable n n
| reach_child n k c m :
    In c (children k n) -> reachable c m -> reachable n m.

(** The collection the callback of [parse] looks up: [properties], or else
    [items.properties]. *)
Definition selected_properties (n : node) : option (list property) :=
  match properties n with
  | Some ps => Some ps
  | None =>
    match items n with
    | Some it => items_properties it
    | None => None
    end
  end.


(** [s] ends with [suffix]. *)
Definition ends_with (suffix s : jsstring) : Prop :=
  exists pre, s = pre ++ suffix.

(** The file filter in effect when the caller omits [input.fileFilter]. *)
Definition default_file_predicate (env : Env) : jsstring -> bool :=
  fileFilter_predicate
    (input_fileFilter (extend (DefaultConfig env) no_config)).

(** The file system after the statements of [write_file], when none
    fails. *)
Definition ensure_and_write (root : fsnode) (p : path) (data : jsstring)
  : result fsnode :=
  fs1 <- (if existsSync root p then Ok root else mkdirp root p) ;;
  writeFileSync fs1 p data.

(** The same for a sequence of files, in order. *)
Fixpoint write_all (root : fsnode) (files : list (path * jsstring))
  : result fsnode :=
  match files with
  | [] => Ok root
  | (p, data) :: rest =>
    root' <- ensure_and_write root p data ;;
    write_all root' rest
  end.

(** [q] leaves the path [p] at some entry: the two paths agree on a
    prefix, which may be empty, and go on with different names. *)
Fixpoint apart (p q : path) : bool :=
  match p, q with
  | a :: p', b :: q' => if jsstring_eqb a b then apart p' q' else true
  | _, _ => false
  end.

(** The replace-if-truthy policy in the words of the specification: a
    rendered text is replaced by the answer of the output content filter
    when there is a filter and its answer is truthy, that is a non-empty
    string, and it is kept otherwise. *)
Definition post_processed (cf : option (jsstring -> filtered))
  (rendered : jsstring) : jsstring :=
  match cf with
  | None => rendered
  | Some f =>
    match f rendered with
    | FString (c :: s) => c :: s
    | _ => rendered
    end
  end.

(** [p] can receive a file: it is not the root, none of its proper
    prefixes is a regular file and [p] itself is not a directory. *)
Definition writable (root : fsnode) (p : path) : Prop :=
  p <> [] /\
  (forall q r c, p = q ++ r -> r <> [] -> fs_lookup root q <> Some (FFile c)) /\
  (forall es, fs_lookup root p <> Some (FDir es)).

(** The same, decided along the path. *)
Fixpoint writableb (root : fsnode) (p : path) : bool :=
  match root, p with
  | FDir es, name :: p' =>
    match p' with
    | [] =>
      match entry_lookup name es with
      | Some (FDir _) => false
      | _ => true
      end
    | _ :: _ =>
      match entry_lookup name es with
      | Some t => writableb t p'
      | None => true
      end
    end
  | _, _ => false
  end.

(** Ascending order of first characters, and the selection of the
    resources whose [displayName] starts with a given character. *)
Definition first_char_le (a b : node) : Prop :=
  match first_char a, first_char b with
  | Some x, Some y => (x <= y)%N
  | _, _ => False
  end.

Definition has_first_char (c : N) (e : node) : bool :=
  match first_char e with
  | Some x => N.eqb x c
  | None => false
  end.

(** [es'] is [es] sorted ascending by first character, the resources with
    the same first character in their original relative order. *)
Definition sorted_by_first_char (es es' : list node) : Prop :=
  Permutation es es' /\
  StronglySorted first_char_le es' /\
  forall c, filter (has_first_char c) es' = filter (has_first_char c) es.

(** What the sorting loop of the versioning branch does to one version
    group: a non-empty [resources] array is sorted in place. *)
Definition version_sorted (v v' : node) : Prop :=
  match resources v with
  | Some (lv, e :: es) =>
    exists es', v' = set_resources v (Some (lv, es')) /\
                sorted_by_first_char (e :: es) es'
  | _ => v' = v
  end.

(** The settings with another output content filter. *)
Definition with_contentFilter (st : settings)
  (cf : option (jsstring -> filtered)) : settings :=
  {| templateFile := templateFile st;
     homeTemplateFile := homeTemplateFile st;
     contentFilter := cf;
     outputPath := outputPath st;
     outputExt := outputExt st;
     outputType := outputType st;
     outputSplitting := outputSplitting st |}.

(** The filter that answers like [f] where [f] is truthy and hands back
    the text it was given where [f] is falsy. *)
Definition replace_if_truthy (f : jsstring -> filtered)
  : jsstring -> filtered :=
  fun rendered => if truthy (f rendered) then f rendered else FString rendered.

(** The resources a per-resource branch renders a page for, in order,
    read off the document as it is when the page loop starts. *)
Definition rendered_resources (splitting : FileSplitting) (item : node)
  : list node :=
  match splitting with
  | AllInOne => []
  | OnePerResource => resources_list item
  | OnePerResourceVersioning => flat_map resources_list (resources_list item)
  end.

(** The document as it is when the page loop of a per-resource branch
    starts. *)
Definition before_pages (env : Env) (splitting : FileSplitting) (item : node)
  : result node :=
  match splitting with
  | OnePerResourceVersioning => sort_versions env item
  | _ => Ok item
  end.

(** The identities of all [resources] arrays found in a node. *)
Fixpoint array_ids (n : node) : list loc :=
  match resources n with
  | Some (l, xs) => l :: flat_map array_ids xs
  | None => []
  end ++
  flat_map array_ids (methods n) ++
  flat_map array_ids (responses n) ++
  flat_map array_ids (body n).

(** A document is a tree when no array object occurs in it twice. *)
Definition tree_shaped (n : node) : Prop := NoDup (array_ids n).

(** All arrays of the document were allocated before the world's next
    fresh identity. *)
Definition allocated (w : world) (n : node) : Prop :=
  forall l, In l (array_ids n) -> l < w_next w.

(** What a per-resource branch leaves of a document: the document as it
    was when its page loop started if no page was rendered, and otherwise
    the document with [resources] replaced by a fresh one-element array
    holding the last resource rendered. *)
Definition page_loop_effect (env : Env) (splitting : FileSplitting)
  (w : world) (item item' : node) : Prop :=
  exists item0,
    before_pages env splitting item = Ok item0 /\
    (rendered_resources splitting item0 = [] -> item' = item0) /\
    (forall pre res,
       rendered_resources splitting item0 = pre ++ [res] ->
       exists l',
         w_next w <= l' /\
         item' = set_resources item (Some (l', [res])) /\
         (forall l0 rs0,
            resources item = Some (l0, rs0) ->
            tree_shaped item -> allocated w item ->
            ~ In l0 (array_ids item'))).

(** Two resources in the order of their first characters, the given order
    when neither comes strictly first. *)
Definition in_first_char_order (a b : node) : list node :=
  if char_lt (first_char b) (first_char a) then [b; a] else [a; b].

(** ** A concrete environment *)

(** Collation by code units, the order of the root locale on ASCII
    letters of one case. *)
Fixpoint code_unit_compare (a b : jsstring) : Z :=
  match a, b with
  | [], [] => 0
  | [], _ :: _ => -1
  | _ :: _, [] => 1
  | x :: a', y :: b' =>
    match N.compare x y with
    | Lt => -1
    | Gt => 1
    | Eq => code_unit_compare a' b'
    end
  end%Z.

Definition leaf (name : string) (ps : option (list property))
  (its : option items_obj) : node :=
  Node (Some (lit name)) None ps its None [] [] [] [].

Definition prop (name : string) : property := Property (lit name) [].

(** A document whose body schema lists [zip] before [city]. *)
Definition sample_document : node :=
  Node None None (Some []) None
    (Some (0, [Node (Some (lit "/users")) None (Some []) None None
                 [Node None None (Some []) None None []
                    [Node None None (Some []) None None [] []
                       [leaf "body" (Some [prop "zip"; prop "city"]) None] []]
                    [] []]
                 [] [] []]))
    [] [] [] (lit "Users API").

(** A document as the RAML parser emits it for a definition without
    types: neither [properties] nor [items]. *)
Definition bare_document : node :=
  Node None None None None (Some (0, [])) [] [] [] (lit "Empty API").

Definition sample_text (template : path) (item : node) : jsstring :=
  List.concat template ++ lit ":" ++ extra item ++ lit ":" ++
  List.concat (map (fun r => to_string (displayName r))
                 (resources_list item)).

Definition sample_render (template : path) (item : node) : result jsstring :=
  Ok (sample_text template item).

(** A document with types and no resources. *)
Definition resourceless_document : node :=
  Node None None (Some [prop "id"]) None (Some (0, [])) [] [] []
    (lit "Types only").

(** A document with one version group [v1] holding two endpoints. *)
Definition users_endpoint : node := leaf "users" (Some []) None.
Definition accounts_endpoint : node := leaf "accounts" (Some []) None.

Definition version_group : node :=
  Node (Some (lit "Version 1")) (Some (lit "v1")) (Some []) None
    (Some (1, [users_endpoint; accounts_endpoint])) [] [] [] [].

Definition versioned_document : node :=
  Node None None (Some []) None (Some (0, [version_group])) [] [] []
    (lit "Accounts API").

(** An environment: paths resolve to entries of the root directory, the
    parser knows four files, the template engine prints the template
    name, the document's further fields and the names of its resources,
    and the engine leaves an array it cannot order as it is. *)
Definition sample_env : Env :=
  {| localeCompare := code_unit_compare;
     path_resolve := fun p => [p];
     path_join := fun dir name => dir ++ [name];
     raml2obj_parse := fun file =>
       if jsstring_eqb file (lit "bare.raml") then Ok bare_document
       else if jsstring_eqb file (lit "types.raml")
            then Ok resourceless_document
       else if jsstring_eqb file (lit "versions.raml")
            then Ok versioned_document
       else Ok sample_document;
     nunjucks_render := sample_render;
     dirname := lit "/lib";
     engine_sort := fun es => es;
     engine_sort_perm := @Permutation_refl node |}.

Definition sample_fs : fsnode :=
  FDir [(lit "api.raml", FFile (lit "#%RAML 1.0"));
        (lit "bare.raml", FFile (lit "#%RAML 1.0"));
        (lit "types.raml", FFile (lit "#%RAML 1.0"));
        (lit "versions.raml", FFile (lit "#%RAML 1.0"));
        (lit "notes.txt", FFile [])].

Definition with_paths (ps : list string) : user_config :=
  {| u_paths := Some (map lit ps); u_recursive := None; u_fileFilter := None;
     u_templateFile := None; u_homeTemplateFile := None;
     u_input_contentFilter := None; u_type := None; u_splitting := None;
     u_path := None; u_extension := None; u_output_contentFilter := None |}.

Definition sample_world : world :=
  {| w_fs := sample_fs; w_stdout := []; w_next := 10 |}.

(** A caller configuration for file output into [out]. *)
Definition to_files (ps : list string) (splitting : FileSplitting)
  (out : string) (home : option string) : user_config :=
  {| u_paths := Some (map lit ps); u_recursive := None; u_fileFilter := None;
     u_templateFile := None;
     u_homeTemplateFile := option_map lit home;
     u_input_contentFilter := None; u_type := Some File;
     u_splitting := Some splitting;
     u_path := Some (Some (lit out)); u_extension := None;
     u_output_contentFilter := None |}.

(** A filter that strips everything: its answer, the empty string, is
    falsy. *)
Definition strip_all : jsstring -> filtered := fun _ => FString [].

Definition sample_settings : settings :=
  with_contentFilter
    (settings_of sample_env
       (extend (DefaultConfig sample_env)
          (to_files ["api.raml"%string] OnePerResource "out" None)))
    (Some strip_all).

Definition versioning_config : user_config :=
  to_files ["versions.raml"%string] OnePerResourceVersioning "out"
    (Some "home.njk"%string).

Definition versioning_settings : settings :=
  settings_of sample_env (extend (DefaultConfig sample_env) versioning_config).

Definition types_config : user_config :=
  to_files ["types.raml"%string] OnePerResource "out" None.

(** ** Further vocabulary *)

(** [s] has three line feeds in a row. *)
Definition has_blank_run (s : jsstring) : Prop :=
  exists pre post, s = pre ++ [10; 10; 10]%N ++ post.

(** The same, decided from the left. *)
Fixpoint has_blank_runb (s : jsstring) : bool :=
  match s with
  | [] => false
  | a :: t =>
    match t with
    | b :: c :: _ => N.eqb a 10 && N.eqb b 10 && N.eqb c 10
    | _ => false
    end || has_blank_runb t
  end.

(** The characters of [s] other than line feeds, in order. *)
Definition without_line_feeds (s : jsstring) : jsstring :=
  filter (fun c => negb (N.eqb c 10)) s.

(** The text the dispatcher uses for a rendered string when the caller
    leaves [output.contentFilter] alone. *)
Definition default_filtered (env : Env) (rendered : jsstring) : jsstring :=
  filter_output (output_contentFilter (extend (DefaultConfig env) no_config))
    rendered.

(** The caller's configuration with [output.type] set. *)
Definition with_type (u : user_config) (t : OutputType) : user_config :=
  {| u_paths := u_paths u; u_recursive := u_recursive u;
     u_fileFilter := u_fileFilter u; u_templateFile := u_templateFile u;
     u_homeTemplateFile := u_homeTemplateFile u;
     u_input_contentFilter := u_input_contentFilter u;
     u_type := Some t; u_splitting := u_splitting u; u_path := u_path u;
     u_extension := u_extension u;
     u_output_contentFilter := u_output_contentFilter u |}.

(** An environment whose template engine rejects every template. *)
Definition broken_template_env : Env :=
  {| localeCompare := localeCompare sample_env;
     path_resolve := path_resolve sample_env;
     path_join := path_join sample_env;
     raml2obj_parse := raml2obj_parse sample_env;
     nunjucks_render := fun _ _ => Throw TemplateError;
     dirname := dirname sample_env;
     engine_sort := engine_sort sample_env;
     engine_sort_perm := engine_sort_perm sample_env |}.

(** A step keeps the relation [P] between the world it starts from and
    the world it ends in, whether it returns or throws. *)
Definition keeps (P : world -> world -> Prop) {A} (m : M A) : Prop :=
  forall w r w', m w = (r, w') -> P w w'.

Definition same_stdout (w w' : world) : Prop := w_stdout w' = w_stdout w.
Definition same_fs (w w' : world) : Prop := w_fs w' = w_fs w.

(** ** The files of the per-resource branches *)

(** The pages of one document in the order the page loops visit them: the
    name of the file and the resource of each.  The document is the one
    the loops start from. *)
Definition page_names (st : settings) (splitting : FileSplitting)
  (item : node) : list (jsstring * node) :=
  match splitting with
  | AllInOne => []
  | OnePerResource =>
    map (fun res => (to_string (displayName res) ++ outputExt st, res))
      (resources_list item)
  | OnePerResourceVersioning =>
    flat_map
      (fun version =>
         map (fun res =>
                (to_string (displayName res) ++ lit "_" ++
                 to_string (uniqueId version) ++ outputExt st, res))
           (resources_list version))
      (resources_list item)
  end.

(** The files of these pages for a template engine that answers [R]: each
    is rendered from the document whose [resources] is a fresh array, the
    next one after [l], holding the resource of the page alone. *)
Fixpoint page_files (env : Env) (st : settings) (R : path -> node -> jsstring)
  (out : path) (item : node) (l : loc) (pages : list (jsstring * node))
  : list (path * jsstring) :=
  match pages with
  | [] => []
  | (name, res) :: rest =>
    (path_join env out name,
     filter_output (contentFilter st)
       (R (templateFile st) (set_resources item (Some (l, [res])))))
    :: page_files env st R out item (S l) rest
  end.

(** The home page of the versioning branch, rendered from the whole
    document when a home template is configured. *)
Definition home_file (env : Env) (st : settings) (R : path -> node -> jsstring)
  (out : path) (splitting : FileSplitting) (item : node)
  : list (path * jsstring) :=
  match splitting, homeTemplateFile st with
  | OnePerResourceVersioning, Some home =>
    [(path_join env out (lit "Home" ++ outputExt st),
      filter_output (contentFilter st) (R home item))]
  | _, _ => []
  end.

(** All files of a per-resource branch for a sequence of documents. *)
Fixpoint branch_files (env : Env) (st : settings) (R : path -> node -> jsstring)
  (out : path) (splitting : FileSplitting) (l : loc) (docs : list node)
  : list (path * jsstring) :=
  match docs with
  | [] => []
  | item :: rest =>
    home_file env st R out splitting item ++
    page_files env st R out item l (page_names st splitting item) ++
    branch_files env st R out splitting
      (l + List.length (page_names st splitting item)) rest
  end.

(** The step [m], started in [w], does to the file system what writing
    [files] in order does: it returns (a value satisfying [Q], with [n]
    arrays allocated) when all the writes succeed, and throws the error of
    the first write that fails. *)
Definition writes_as {A} (m : M A) (w : world)
  (files : list (path * jsstring)) (n : nat) (Q : A -> Prop) : Prop :=
  match write_all (w_fs w) files with
  | Ok fs' =>
    exists a, m w = (Ok a, World fs' (w_stdout w) (w_next w + n)) /\ Q a
  | Throw e => fst (m w) = Throw e
  end.

(** A version group that the sorting loop of the versioning branch cannot
    sort: it has two endpoints or more and one of them has no
    [displayName]. *)
Definition unsortable (version : node) : Prop :=
  exists l e1 e2 es e,
    resources version = Some (l, e1 :: e2 :: es) /\
    In e (e1 :: e2 :: es) /\ displayName e = None.

(** A caller configuration for per-resource file output of one file. *)
Definition per_resource_config : user_config :=
  to_files ["api.raml"%string] OnePerResource "out" None.

(** A document with a version group whose second endpoint has no
    [displayName]. *)
Definition unnamed_endpoint : node :=
  Node None None (Some []) None None [] [] [] [].

Definition unsortable_document : node :=
  Node None None (Some []) None
    (Some (0, [Node (Some (lit "Version 1")) (Some (lit "v1")) (Some []) None
                 (Some (1, [users_endpoint; unnamed_endpoint])) [] [] [] []]))
    [] [] [] (lit "Accounts API").

(** The sample environment with a parser that answers the unsortable
    document for every file. *)
Definition unsortable_env : Env :=
  {| localeCompare := localeCompare sample_env;
     path_resolve := path_resolve sample_env;
     path_join := path_join sample_env;
     raml2obj_parse := fun _ => Ok unsortable_document;
     nunjucks_render := nunjucks_render sample_env;
     dirname := dirname sample_env;
     engine_sort := engine_sort sample_env;
     engine_sort_perm := engine_sort_perm sample_env |}.

(** A document with two top-level resources of the same [displayName]. *)
Definition first_users : node :=
  Node (Some (lit "users")) None (Some []) None None [] [] [] (lit "first").

Definition second_users : node :=
  Node (Some (lit "users")) None (Some []) None None [] [] [] (lit "second").

Definition twice_named_document : node :=
  Node None None (Some []) None (Some (0, [first_users; second_users]))
    [] [] [] (lit "Users API").

(** The sample environment with a parser that answers this document for
    every file and a template engine that prints the further fields of
    the resources of the document. *)
Definition twice_named_env : Env :=
  {| localeCompare := localeCompare sample_env;
     path_resolve := path_resolve sample_env;
     path_join := path_join sample_env;
     raml2obj_parse := fun _ => Ok twice_named_document;
     nunjucks_render := fun _ item =>
       Ok (List.concat (map extra (resources_list item)));
     dirname := dirname sample_env;
     engine_sort := engine_sort sample_env;
     engine_sort_perm := engine_sort_perm sample_env |}.

(** ** What parse does to a document *)

(** Two optional property collections with the same elements, order
    apart. *)
Definition same_elements (a b : option (list property)) : Prop :=
  match a, b with
  | Some xs, Some ys => Permutation xs ys
  | None, None => True
  | _, _ => False
  end.

Definition same_items (a b : option items_obj) : Prop :=
  match a, b with
  | Some x, Some y => same_elements (items_properties x) (items_properties y)
  | None, None => True
  | _, _ => False
  end.

(** [reordered n n']: the trees [n] and [n'] have the same shape, the same
    arrays and the same fields at every node, except that the elements of
    the property collections may stand in another order. *)
Inductive reordered : node -> node -> Prop :=
| reordered_node n n' :
    displayName n' = displayName n ->
    uniqueId n' = uniqueId n ->
    extra n' = extra n ->
    same_elements (properties n) (properties n') ->
    same_items (items n) (items n') ->
    option_map fst (resources n') = option_map fst (resources n) ->
    Forall2 reordered (resources_list n) (resources_list n') ->
    Forall2 reordered (methods n) (methods n') ->
    Forall2 reordered (responses n) (responses n') ->
    Forall2 reordered (body n) (body n') ->
    reordered n n'.

(** The properties called [name]. *)
Definition named (name : jsstring) (p : property) : bool :=
  jsstring_eqb (prop_displayName p) name.

(** A node whose properties hold two descriptors of the same name. *)
Definition duplicate_names_node : node :=
  Node None None
    (Some [Property (lit "b") (lit "1"); Property (lit "a") [];
           Property (lit "b") (lit "2")])
    None None [] [] [] [].

(** The caller's configuration with [output.contentFilter] set. *)
Definition with_output_filter (u : user_config) (f : jsstring -> filtered)
  : user_config :=
  {| u_paths := u_paths u; u_recursive := u_recursive u;
     u_fileFilter := u_fileFilter u; u_templateFile := u_templateFile u;
     u_homeTemplateFile := u_homeTemplateFile u;
     u_input_contentFilter := u_input_contentFilter u;
     u_type := u_type u; u_splitting := u_splitting u; u_path := u_path u;
     u_extension := u_extension u;
     u_output_contentFilter := Some (Some f) |}.

(** A filter that appends an exclamation mark. *)
Definition exclaim : jsstring -> filtered := fun s => FString (s ++ lit "!").






(** What the sorting loop of the versioning branch does to a document
    whose groups it can order: every group is sorted in place. *)
Definition document_sorted (item item' : node) : Prop :=
  exists l versions versions',
    resources item = Some (l, versions) /\
    Forall2 version_sorted versions versions' /\
    item' = set_resources item (Some (l, versions')).

(** * Properties *)

(** ** The definitions on concrete inputs *)

Example separator_is_three_line_feeds :
  js_string_literal "\n\n\n" = [10; 10; 10]%N.
Proof. reflexivity. Qed.

Example default_filter_collapses_blank_lines :
  collapse_newlines 0 (js_string_literal "a\n\n\n\nb\n\nc\n\n\n")
  = js_string_literal "a\n\nb\n\nc\n\n".
Proof. reflexivity. Qed.

Example default_fileFilter_on_paths :
  map (regexp_test default_fileFilter)
    [lit "api.raml"; lit "docs/api.raml"; lit "api.raml.bak"; lit "README.md";
     lit ".raml"; lit "raml"]
  = [true; true; false; false; true; false].
Proof. reflexivity. Qed.

Example pattern_with_escaped_dot :
  option_map (fun re => map (regexp_test re) [lit "api.raml"; lit "xraml"])
    (parse_pattern (js_string_literal "\\.raml$"))
  = Some [true; false].
Proof. reflexivity. Qed.

Example join_three :
  join (lit ", ") [lit "a"; lit "b"; lit "c"] = lit "a, b, c".
Proof. reflexivity. Qed.

Example join_one : join (lit ", ") [lit "a"] = lit "a".
Proof. reflexivity. Qed.

Example array_sort_is_stable :
  array_sort (fun a b : N * N => Z.of_N (fst a) - Z.of_N (fst b))%Z
    [(2, 0); (1, 1); (2, 2); (1, 3)]%N
  = [(1, 1); (1, 3); (2, 0); (2, 2)]%N.
Proof. reflexivity. Qed.

Example listFiles_skips_sub_directories :
  list_tree false (regexp_test default_fileFilter) (lit "api")
    (FDir [(lit "a.raml", FFile []); (lit "notes.txt", FFile []);
           (lit "v2", FDir [(lit "b.raml", FFile [])])])
  = [lit "api/a.raml"].
Proof. reflexivity. Qed.

Example listFiles_recursive :
  list_tree true (regexp_test default_fileFilter) (lit "api")
    (FDir [(lit "a.raml", FFile []); (lit "notes.txt", FFile []);
           (lit "v2", FDir [(lit "b.raml", FFile [])])])
  = [lit "api/a.raml"; lit "api/v2/b.raml"].
Proof. reflexivity. Qed.

Example mkdirp_then_write :
  (fs1 <- mkdirp (FDir []) [lit "out"; lit "v1"; lit "users.md"] ;;
   writeFileSync fs1 [lit "out"; lit "v1"; lit "users.md"] (lit "# Users"))
  = Ok (FDir [(lit "out",
               FDir [(lit "v1",
                      FDir [(lit "users.md", FFile (lit "# Users"))])])]).
Proof. reflexivity. Qed.

Example write_without_parent_fails :
  writeFileSync (FDir []) [lit "out"; lit "users.md"] (lit "# Users")
  = Throw IOError.
Proof. reflexivity. Qed.

Example filter_output_on_falsy_answers :
  map (fun v => filter_output (Some (fun _ => v)) (lit "text"))
    [FUndefined; FNull; FFalse; FZero; FNaN; FString []; FString (lit "new")]
  = [lit "text"; lit "text"; lit "text"; lit "text"; lit "text"; lit "text";
     lit "new"].
Proof. reflexivity. Qed.

(** ** Sorting *)

Section Sorting.
Context {A : Type} (cmp : A -> A -> Z).

Lemma sort_insert_perm x l : Permutation (x :: l) (sort_insert cmp x l).
Proof.
  induction l as [|h t IH]; simpl; [reflexivity|].
  destruct (cmp x h <=? 0)%Z; [reflexivity|].
  rewrite perm_swap. now constructor.
Qed.

Lemma array_sort_perm l : Permutation l (array_sort cmp l).
Proof.
  induction l as [|x t IH]; simpl; [constructor|].
  rewrite <- sort_insert_perm. now constructor.
Qed.

Lemma array_sort_length l : List.length (array_sort cmp l) = List.length l.
Proof. symmetry. apply Permutation_length, array_sort_perm. Qed.

Lemma array_sort_In l x : In x (array_sort cmp l) <-> In x l.
Proof.
  split; apply Permutation_in;
    [symmetry|]; apply array_sort_perm.
Qed.

Section OnDomain.
Variable Q : A -> Prop.
Hypothesis Htotal :
  forall a b, Q a -> Q b -> (0 < cmp a b)%Z -> (cmp b a <= 0)%Z.
Hypothesis Htrans :
  forall a b c, Q a -> Q b -> Q c ->
    (cmp a b <= 0)%Z -> (cmp b c <= 0)%Z -> (cmp a c <= 0)%Z.

Lemma sort_insert_sorted_on x l :
  Q x -> Forall Q l ->
  StronglySorted (cmp_le cmp) l ->
  StronglySorted (cmp_le cmp) (sort_insert cmp x l).
Proof.
  intros Hx HQ Hs. revert HQ.
  induction Hs as [|h t Hs IH Hh]; simpl; intros HQ.
  - repeat constructor.
  - inversion HQ as [|? ? Hqh Hqt]; subst.
    destruct (Z.leb_spec (cmp x h) 0) as [Hle|Hgt].
    + constructor; [now constructor|].
      constructor; [exact Hle|].
      rewrite Forall_forall in *. intros y Hy.
      apply Htrans with h; auto. now apply Hh.
    + constructor; [now apply IH|].
      rewrite Forall_forall in *. intros y Hy.
      apply (Permutation_in _ (Permutation_sym (sort_insert_perm x t)))
        in Hy.
      destruct Hy as [<-|Hy]; [|now apply Hh].
      now apply Htotal.
Qed.

Lemma array_sort_sorted_on l :
  Forall Q l -> StronglySorted (cmp_le cmp) (array_sort cmp l).
Proof.
  induction l as [|x t IH]; simpl; intros HQ; [constructor|].
  inversion HQ as [|? ? Hx Ht]; subst.
  apply sort_insert_sorted_on; auto.
  rewrite Forall_forall in *. intros y Hy. apply Ht.
  now apply array_sort_In.
Qed.
End OnDomain.


(** Stability: the elements selected by a predicate whose members
    compare as equal keep their relative order. *)
Lemma sort_insert_stable (p : A -> bool) x l :
  (forall a b, p a = true -> p b = true -> (cmp a b <= 0)%Z) ->
  filter p (sort_insert cmp x l) = filter p (x :: l).
Proof.
  intros Heq. induction l as [|h t IH]; [reflexivity|].
  simpl sort_insert. destruct (Z.leb_spec (cmp x h) 0) as [Hle|Hgt];
    [reflexivity|].
  simpl in *. rewrite IH.
  destruct (p x) eqn:Hx, (p h) eqn:Hh; try reflexivity.
  specialize (Heq x h Hx Hh). lia.
Qed.

Lemma array_sort_stable (p : A -> bool) l :
  (forall a b, p a = true -> p b = true -> (cmp a b <= 0)%Z) ->
  filter p (array_sort cmp l) = filter p l.
Proof.
  intros Heq. induction l as [|x t IH]; [reflexivity|].
  simpl array_sort. rewrite sort_insert_stable by exact Heq.
  simpl. now rewrite IH.
Qed.
End Sorting.

(** ** The recursive walk *)

Lemma node_children_ind (P : node -> Prop) :
  (forall n, (forall k c, In c (children k n) -> P c) -> P n) ->
  forall n, P n.
Proof.
  intros H. fix IH 1. intros [dn uid ps its rs ms rps bs ex].
  apply H. intros k c Hin.
  destruct k; simpl in Hin; unfold resources_list in Hin; simpl in Hin.
  - destruct rs as [[l xs]|]; [|contradiction].
    assert (HF : Forall P xs).
    { clear Hin. induction xs as [|x t IHt]; constructor;
        [apply IH | exact IHt]. }
    rewrite Forall_forall in HF. exact (HF c Hin).
  - assert (HF : Forall P ms).
    { clear Hin. induction ms as [|x t IHt]; constructor;
        [apply IH | exact IHt]. }
    rewrite Forall_forall in HF. exact (HF c Hin).
  - assert (HF : Forall P rps).
    { clear Hin. induction rps as [|x t IHt]; constructor;
        [apply IH | exact IHt]. }
    rewrite Forall_forall in HF. exact (HF c Hin).
  - assert (HF : Forall P bs).
    { clear Hin. induction bs as [|x t IHt]; constructor;
        [apply IH | exact IHt]. }
    rewrite Forall_forall in HF. exact (HF c Hin).
Qed.

Lemma bind_Ok {A B} (m : result A) (k : A -> result B) b :
  bind m k = Ok b -> exists a, m = Ok a /\ k a = Ok b.
Proof. destruct m; simpl; [eauto|discriminate]. Qed.

Lemma mapM_Ok {A B} (f : A -> result B) xs ys :
  mapM f xs = Ok ys -> Forall2 (fun x y => f x = Ok y) xs ys.
Proof.
  revert ys. induction xs as [|x t IH]; simpl; intros ys H.
  - injection H as <-. constructor.
  - apply bind_Ok in H as (y & Hy & H).
    apply bind_Ok in H as (ys' & Hys & H).
    injection H as <-. constructor; auto.
Qed.

Lemma Forall2_mapM {A B} (f : A -> result B) xs ys :
  Forall2 (fun x y => f x = Ok y) xs ys -> mapM f xs = Ok ys.
Proof.
  induction 1 as [|x y xs ys Hxy _ IH]; simpl; [reflexivity|].
  now rewrite Hxy, IH.
Qed.

(** The walk, one step unfolded for the keys of [parse]. *)
Lemma recursiveEach_node_deepKeys cb n :
  recursiveEach_node deepKeys cb n =
  (n1 <- cb n ;;
   rs <- match resources n with
         | Some (_, xs) => mapM (recursiveEach_node deepKeys cb) xs
         | None => Ok []
         end ;;
   ms <- mapM (recursiveEach_node deepKeys cb) (methods n) ;;
   rps <- mapM (recursiveEach_node deepKeys cb) (responses n) ;;
   bs <- mapM (recursiveEach_node deepKeys cb) (body n) ;;
   Ok (set_children Kbody
         (set_children Kresponses
            (set_children Kmethods (set_children Kresources n1 rs) ms) rps)
         bs)).
Proof.
  destruct n as [dn uid ps its rs ms rps bs ex]. reflexivity.
Qed.

Lemma set_children_fields k n xs :
  properties (set_children k n xs) = properties n /\
  items (set_children k n xs) = items n /\
  displayName (set_children k n xs) = displayName n.
Proof.
  destruct n as [dn uid ps its [[l rs]|] ms rps bs ex], k; simpl; auto.
Qed.



Lemma Forall2_In_r {A B} {R : A -> B -> Prop} {xs ys y}
  (H : Forall2 R xs ys) (Hy : In y ys) : exists x, In x xs /\ R x y.
Proof.
  induction H as [|x0 y0 xs ys Hxy _ IH]; simpl in *; [contradiction|].
  destruct Hy as [<-|Hy]; [eauto|].
  destruct (IH Hy) as (x & Hx & HR). eauto.
Qed.

Section Normalizer.
Variable env : Env.
Hypothesis Hcollation : consistent (localeCompare env).




End Normalizer.

Lemma code_unit_compare_consistent : consistent code_unit_compare.
Proof.
  split.
  - induction a as [|x a IH]; destruct b as [|y b]; simpl; try lia.
    rewrite (N.compare_antisym x y).
    destruct (N.compare x y); simpl; try lia. apply IH.
  - induction a as [|x a IH]; destruct b as [|y b]; destruct c as [|z c];
      simpl; try lia.
    destruct (N.compare_spec x y) as [->|Hxy|Hxy]; try lia.
    + destruct (N.compare_spec y z) as [->|Hyz|Hyz]; try lia. apply IH.
    + destruct (N.compare_spec y z) as [->|Hyz|Hyz]; try lia.
      * intros _ _. destruct (N.compare_spec x z); lia.
      * intros _ _. destruct (N.compare_spec x z); lia.
Qed.



(** ** A node with neither [properties] nor [items] *)

Lemma mapM_Throw {A B} (f : A -> result B) xs e :
  mapM f xs = Throw e -> exists x, In x xs /\ f x = Throw e.
Proof.
  induction xs as [|x t IH]; simpl; [discriminate|].
  destruct (f x) as [y|e'] eqn:Hx; simpl.
  - destruct (mapM f t) as [ys|e'] eqn:Ht; simpl; [discriminate|].
    intros [= ->]. destruct (IH eq_refl) as (x' & Hin & Hx'). eauto.
  - intros [= ->]. eauto.
Qed.

Lemma Forall2_In_l {A B} {R : A -> B -> Prop} {xs ys x}
  (H : Forall2 R xs ys) (Hx : In x xs) : exists y, In y ys /\ R x y.
Proof.
  induction H as [|x0 y0 xs ys Hxy _ IH]; simpl in *; [contradiction|].
  destruct Hx as [<-|Hx]; [eauto|].
  destruct (IH Hx) as (y & Hy & HR). eauto.
Qed.

Lemma parse_callback_only_TypeError env n e :
  parse_callback env n = Throw e -> e = TypeError.
Proof.
  unfold parse_callback.
  destruct (properties n); [discriminate|].
  destruct (items n) as [[[ps|]]|]; try discriminate. now intros [= <-].
Qed.

Lemma recursiveEach_node_only_TypeError env n :
  forall e, recursiveEach_node deepKeys (parse_callback env) n = Throw e ->
            e = TypeError.
Proof.
  induction n as [n IH] using node_children_ind. intros e.
  rewrite recursiveEach_node_deepKeys.
  assert (Hkids : forall k,
            mapM (recursiveEach_node deepKeys (parse_callback env))
              (children k n) = Throw e -> e = TypeError).
  { intros k Hk. apply mapM_Throw in Hk as (x & Hx & Hk). eauto. }
  destruct (parse_callback env n) as [n1|e1] eqn:Hcb; simpl.
  2:{ intros [= <-]. eapply parse_callback_only_TypeError; eauto. }
  pose proof (Hkids Kresources) as Hr. unfold children, resources_list in Hr.
  destruct (resources n) as [[l xs]|]; simpl.
  - destruct (mapM _ xs); simpl; [|intros [= <-]; auto].
    pose proof (Hkids Kmethods) as Hm. simpl in Hm.
    destruct (mapM _ (methods n)); simpl; [|intros [= <-]; auto].
    pose proof (Hkids Kresponses) as Hp. simpl in Hp.
    destruct (mapM _ (responses n)); simpl; [|intros [= <-]; auto].
    pose proof (Hkids Kbody) as Hb. simpl in Hb.
    destruct (mapM _ (body n)); simpl; [discriminate|intros [= <-]; auto].
  - pose proof (Hkids Kmethods) as Hm. simpl in Hm.
    destruct (mapM _ (methods n)); simpl; [|intros [= <-]; auto].
    pose proof (Hkids Kresponses) as Hp. simpl in Hp.
    destruct (mapM _ (responses n)); simpl; [|intros [= <-]; auto].
    pose proof (Hkids Kbody) as Hb. simpl in Hb.
    destruct (mapM _ (body n)); simpl; [discriminate|intros [= <-]; auto].
Qed.

Lemma recursiveEach_node_visits env n m :
  reachable n m ->
  parse_callback env m = Throw TypeError ->
  forall n', recursiveEach_node deepKeys (parse_callback env) n <> Ok n'.
Proof.
  induction 1 as [n|n k c m Hin _ IH]; intros Hm n' Hwalk;
    rewrite recursiveEach_node_deepKeys in Hwalk;
    apply bind_Ok in Hwalk as (n1 & Hcb & Hwalk).
  - congruence.
  - apply bind_Ok in Hwalk as (rs & Hrs & Hwalk).
    apply bind_Ok in Hwalk as (ms & Hms & Hwalk).
    apply bind_Ok in Hwalk as (rps & Hrps & Hwalk).
    apply bind_Ok in Hwalk as (bs & Hbs & _).
    assert (Hc : exists c', recursiveEach_node deepKeys (parse_callback env) c
                            = Ok c').
    { destruct k; simpl in Hin; unfold resources_list in Hin.
      - destruct (resources n) as [[l xs]|]; [|contradiction].
        apply mapM_Ok in Hrs.
        destruct (Forall2_In_l Hrs Hin) as (y & _ & Hy); eauto.
      - apply mapM_Ok in Hms.
        destruct (Forall2_In_l Hms Hin) as (y & _ & Hy); eauto.
      - apply mapM_Ok in Hrps.
        destruct (Forall2_In_l Hrps Hin) as (y & _ & Hy); eauto.
      - apply mapM_Ok in Hbs.
        destruct (Forall2_In_l Hbs Hin) as (y & _ & Hy); eauto. }
    destruct Hc as (c' & Hc). exact (IH Hm c' Hc).
Qed.

(** C2: on a node with neither [properties] nor [items] the callback of
    [parse] throws a [TypeError] (reading [properties] of the missing
    [items]) instead of doing nothing, and so [parse] rejects whenever
    the documents it loaded contain such a node. *)
Theorem parse_callback_throws_without_items env n :
  properties n = None -> items n = None ->
  parse_callback env n = Throw TypeError /\
  forall root u items d,
    parse_load env root (extend (DefaultConfig env) u) = Ok items ->
    In d (relax (input_contentFilter (extend (DefaultConfig env) u)) items) ->
    reachable d n ->
    parse env root u = Throw TypeError.
Proof.
  intros Hp Hi.
  assert (Hcb : parse_callback env n = Throw TypeError).
  { unfold parse_callback. now rewrite Hp, Hi. }
  split; [exact Hcb|].
  intros root u items d Hload Hd Hreach.
  unfold parse. rewrite Hload. simpl. unfold parse_then, recursiveEach.
  destruct (mapM _ _) as [docs|e] eqn:Hwalk.
  - apply mapM_Ok in Hwalk.
    destruct (Forall2_In_l Hwalk Hd) as (d' & _ & Hd').
    now destruct (recursiveEach_node_visits env Hreach Hcb Hd').
  - apply mapM_Throw in Hwalk as (x & _ & Hx).
    now rewrite (recursiveEach_node_only_TypeError _ _ Hx).
Qed.

Lemma parse_callback_throws_without_items_witness :
  parse_callback sample_env bare_document = Throw TypeError /\
  parse sample_env sample_fs (with_paths ["bare.raml"%string])
    = Throw TypeError.
Proof.
  destruct (@parse_callback_throws_without_items sample_env bare_document
              eq_refl eq_refl) as [Hcb Hparse].
  split; [exact Hcb|].
  apply (Hparse sample_fs (with_paths ["bare.raml"%string])
           [[bare_document]] bare_document).
  - vm_compute. reflexivity.
  - left. reflexivity.
  - apply reach_here.
Defined.

(** ** The default file filter *)

(** The default regular expression is what [new RegExp] builds from the
    literal written in the source. *)
Lemma default_fileFilter_source :
  parse_pattern (js_string_literal "\.raml$") = Some default_fileFilter.
Proof. reflexivity. Qed.

Lemma match_here_default s :
  match_here (re_atoms default_fileFilter) (re_end default_fileFilter) s = true
  <-> exists c, s = c :: lit "raml" /\ line_terminator c = false.
Proof.
  split.
  - destruct s as [|c [|r [|a [|m [|l [|x s]]]]]]; simpl;
      rewrite ?andb_false_r; try discriminate.
    intros H.
    apply andb_true_iff in H as [Hc H].
    apply andb_true_iff in H as [Hr H].
    apply andb_true_iff in H as [Ha H].
    apply andb_true_iff in H as [Hm Hl].
    apply andb_true_iff in Hl as [Hl _].
    apply N.eqb_eq in Hr, Ha, Hm, Hl. subst.
    exists c. split; [reflexivity|].
    now apply negb_true_iff in Hc.
  - intros (c & -> & Hc). simpl. now rewrite Hc.
Qed.

(** What the default filter accepts: the paths that end with one code unit
    other than a line terminator followed by [raml]. *)
Lemma default_fileFilter_accepts p :
  regexp_test default_fileFilter p = true <->
  exists pre c, p = pre ++ c :: lit "raml" /\ line_terminator c = false.
Proof.
  induction p as [|x p IH].
  - simpl. split; [discriminate|].
    intros (pre & c & H & _). destruct pre; discriminate.
  - change (regexp_test default_fileFilter (x :: p)) with
      (match_here (re_atoms default_fileFilter) (re_end default_fileFilter)
         (x :: p) || regexp_test default_fileFilter p).
    rewrite orb_true_iff, match_here_default, IH. split.
    + intros [(c & H & Hc)|(pre & c & H & Hc)].
      * exists [], c. now split.
      * exists (x :: pre), c. subst. now split.
    + intros (pre & c & H & Hc). destruct pre as [|y pre]; simpl in H.
      * left. eauto.
      * right. injection H as -> ->. eauto.
Qed.

Lemma default_fileFilter_accepts_raml_suffix env p :
  ends_with (lit ".raml") p -> default_file_predicate env p = true.
Proof.
  intros [pre ->]. unfold default_file_predicate. simpl.
  apply default_fileFilter_accepts. exists pre, (code_unit "."). now split.
Qed.

(** C4: the default file filter also accepts paths that do not end with
    [.raml]: the path [xraml] is accepted, because the pattern's dot is
    not escaped. *)
Theorem default_fileFilter_accepts_xraml env :
  default_file_predicate env (lit "xraml") = true /\
  ~ ends_with (lit ".raml") (lit "xraml").
Proof.
  split; [reflexivity|].
  intros [pre H]. destruct pre as [|c pre]; [discriminate|].
  apply (f_equal (@List.length N)) in H.
  simpl in H. rewrite length_app in H. simpl in H. lia.
Qed.

(** ** Missing input paths *)

Lemma mapM_Throw_uniform {A B} (f : A -> result B) e0 xs x :
  (forall y e, f y = Throw e -> e = e0) ->
  In x xs -> f x = Throw e0 -> mapM f xs = Throw e0.
Proof.
  intros Honly Hin Hx.
  destruct (mapM f xs) as [ys|e] eqn:Hm.
  - apply mapM_Ok in Hm. destruct (Forall2_In_l Hm Hin) as (y & _ & Hy).
    congruence.
  - apply mapM_Throw in Hm as (y & _ & Hy). now rewrite (Honly _ _ Hy).
Qed.

Lemma listFiles_only_NotFoundError env root p recursive filter e :
  listFiles env root p recursive filter = Throw e -> e = NotFoundError.
Proof.
  unfold listFiles. destruct (fs_lookup root (path_resolve env p));
    [discriminate|]. now intros [= <-].
Qed.

(** C8: when one of the configured input paths does not exist, [parse]
    rejects with the not-found failure; it does not resolve. *)
Theorem parse_missing_path_rejects env root u p :
  In p (input_paths (extend (DefaultConfig env) u)) ->
  existsSync root (path_resolve env p) = false ->
  parse env root u = Throw NotFoundError.
Proof.
  intros Hin Hmissing. unfold parse, parse_load.
  rewrite (@mapM_Throw_uniform _ _ _ NotFoundError _ p);
    [reflexivity| |exact Hin|].
  - intros y e. apply listFiles_only_NotFoundError.
  - unfold existsSync in Hmissing. unfold listFiles.
    destruct (fs_lookup root (path_resolve env p)); [discriminate|reflexivity].
Qed.

Lemma parse_missing_path_rejects_witness :
  parse sample_env sample_fs (with_paths ["/does/not/exist"%string])
    = Throw NotFoundError.
Proof.
  apply (@parse_missing_path_rejects sample_env sample_fs
           (with_paths ["/does/not/exist"%string]) (lit "/does/not/exist")).
  - left. reflexivity.
  - reflexivity.
Defined.

(** ** Writing files *)

Lemma jsstring_eqb_refl a : jsstring_eqb a a = true.
Proof. induction a as [|x a IH]; simpl; [|rewrite N.eqb_refl]; auto. Qed.

Lemma entry_lookup_set name t es :
  entry_lookup name (entry_set name t es) = Some t.
Proof.
  induction es as [|[n t0] rest IH]; simpl.
  - now rewrite jsstring_eqb_refl.
  - destruct (jsstring_eqb name n) eqn:E; simpl; now rewrite E.
Qed.

Lemma writableb_writable root p : writableb root p = true <-> writable root p.
Proof.
  revert root. induction p as [|name p' IH]; intros root.
  { split; [destruct root; discriminate|]. now intros [H _]. }
  destruct root as [c0|es].
  { split; [discriminate|]. intros (_ & H & _).
    now destruct (H [] (name :: p') c0 eq_refl). }
  simpl. destruct p' as [|n2 p''].
  - split.
    + intros H. split; [discriminate|]. split.
      * intros q r c Hq Hr. destruct q as [|x q]; [discriminate|].
        injection Hq as <- Hq. destruct q; [|discriminate].
        simpl in Hq. now subst.
      * intros es' Hl. simpl in Hl.
        destruct (entry_lookup name es) as [[|]|]; congruence.
    + intros (_ & _ & H). specialize (H : forall es', _). simpl in H.
      destruct (entry_lookup name es) as [[c|es']|]; try reflexivity.
      now destruct (H es').
  - destruct (entry_lookup name es) as [t|] eqn:El.
    + rewrite IH. split.
      * intros (_ & H1 & H2). split; [discriminate|]. split.
        -- intros q r c Hq Hr. destruct q as [|x q]; [discriminate|].
           injection Hq as <- Hq. simpl. rewrite El. now apply H1 with r.
        -- intros es'. simpl. rewrite El. apply H2.
      * intros (_ & H1 & H2). split; [discriminate|]. split.
        -- intros q r c Hq Hr. specialize (H1 (name :: q) r c).
           simpl in H1. rewrite El in H1. apply H1; [now rewrite Hq|exact Hr].
        -- intros es'. specialize (H2 es'). simpl in H2. now rewrite El in H2.
    + split; [intros _|reflexivity]. split; [discriminate|]. split.
      * intros q r c Hq Hr. destruct q as [|x q]; [discriminate|].
        injection Hq as <- Hq. simpl. now rewrite El.
      * intros es'. simpl. now rewrite El.
Qed.

Lemma writableb_fresh_dir p : p <> [] -> writableb (FDir []) p = true.
Proof. destruct p as [|n [|n2 p]]; [congruence| |]; reflexivity. Qed.

Lemma existsSync_fresh_dir p : p <> [] -> existsSync (FDir []) p = false.
Proof. destruct p; [congruence|reflexivity]. Qed.

Lemma writeFileSync_cons name n2 p es data :
  writeFileSync (FDir es) (name :: n2 :: p) data =
  match entry_lookup name es with
  | Some t =>
    t' <- writeFileSync t (n2 :: p) data ;; Ok (FDir (entry_set name t' es))
  | None => Throw IOError
  end.
Proof. reflexivity. Qed.

Lemma mkdirs_cons name dir es :
  mkdirs (FDir es) (name :: dir) =
  (sub' <- mkdirs match entry_lookup name es with
                  | Some t => t
                  | None => FDir []
                  end dir ;;
   Ok (FDir (entry_set name sub' es))).
Proof. reflexivity. Qed.

Lemma fs_lookup_cons name p es :
  fs_lookup (FDir es) (name :: p) =
  match entry_lookup name es with
  | Some t => fs_lookup t p
  | None => None
  end.
Proof. reflexivity. Qed.

Lemma ensure_and_write_ok data p :
  forall root, writableb root p = true ->
  exists root',
    ensure_and_write root p data = Ok root' /\
    fs_lookup root' p = Some (FFile data) /\
    (forall q r, p = q ++ r -> r <> [] ->
                 exists es, fs_lookup root' q = Some (FDir es)).
Proof.
  induction p as [|name p' IH]; intros root Hw.
  { destruct root; discriminate. }
  destruct root as [c0|es]; [discriminate|].
  destruct p' as [|n2 p''].
  - (* the file is an entry of the root *)
    exists (FDir (entry_set name (FFile data) es)). split; [|split].
    + unfold ensure_and_write, mkdirp, existsSync. simpl in Hw |- *.
      destruct (entry_lookup name es) as [[c|es']|] eqn:El;
        try discriminate; simpl; now rewrite El.
    + simpl. now rewrite entry_lookup_set.
    + intros q r Hq Hr. destruct q as [|x q].
      * simpl. eauto.
      * injection Hq as <- Hq. destruct q; [|discriminate].
        simpl in Hq. now subst.
  - set (t0 := match entry_lookup name es with
               | Some t => t
               | None => FDir []
               end).
    assert (Hw0 : writableb t0 (n2 :: p'') = true).
    { subst t0. simpl in Hw. destruct (entry_lookup name es); [exact Hw|].
      now apply writableb_fresh_dir. }
    destruct (IH t0 Hw0) as (t' & Hens & Hfile & Hdirs).
    assert (Hgoal : exists es',
               ensure_and_write (FDir es) (name :: n2 :: p'') data =
               Ok (FDir (entry_set name t' es'))).
    { unfold ensure_and_write, mkdirp in *.
      change (removelast (name :: n2 :: p''))
        with (name :: removelast (n2 :: p'')).
      unfold existsSync in *. rewrite fs_lookup_cons, mkdirs_cons.
      fold t0. subst t0.
      destruct (entry_lookup name es) as [t|] eqn:El.
      - destruct (fs_lookup t (n2 :: p'')) as [x|] eqn:Hex.
        + cbn [bind] in Hens |- *. exists es.
          now rewrite writeFileSync_cons, El, Hens.
        + apply bind_Ok in Hens as (s' & Hmk & Hwr).
          exists (entry_set name s' es). rewrite Hmk. cbn [bind].
          now rewrite writeFileSync_cons, entry_lookup_set, Hwr.
      - assert (Hex : fs_lookup (FDir []) (n2 :: p'') = None) by reflexivity.
        rewrite Hex in Hens.
        apply bind_Ok in Hens as (s' & Hmk & Hwr).
        exists (entry_set name s' es). rewrite Hmk. cbn [bind].
        now rewrite writeFileSync_cons, entry_lookup_set, Hwr. }
    destruct Hgoal as (es' & Hgoal).
    exists (FDir (entry_set name t' es')). split; [exact Hgoal|]. split.
    + simpl. now rewrite entry_lookup_set.
    + intros q r Hq Hr. destruct q as [|x q].
      * simpl. eauto.
      * injection Hq as <- Hq. simpl. rewrite entry_lookup_set.
        now apply Hdirs with r.
Qed.

Lemma write_file_Ok w p data fs' :
  ensure_and_write (w_fs w) p data = Ok fs' ->
  write_file p data w = (Ok tt, World fs' (w_stdout w) (w_next w)).
Proof.
  unfold ensure_and_write, write_file. intros H.
  apply bind_Ok in H as (fs1 & -> & ->). reflexivity.
Qed.

Lemma write_file_Throw w p data e :
  ensure_and_write (w_fs w) p data = Throw e ->
  fst (write_file p data w) = Throw e.
Proof.
  unfold ensure_and_write, write_file.
  destruct (if existsSync (w_fs w) p then _ else _) as [fs1|e1]; simpl.
  - now intros ->.
  - now intros [= ->].
Qed.

Lemma write_file_writable w p data :
  writable (w_fs w) p ->
  exists fs',
    write_file p data w = (Ok tt, World fs' (w_stdout w) (w_next w)) /\
    fs_lookup fs' p = Some (FFile data) /\
    (forall q r, p = q ++ r -> r <> [] ->
                 exists es, fs_lookup fs' q = Some (FDir es)).
Proof.
  intros Hw. apply writableb_writable in Hw.
  destruct (ensure_and_write_ok data p _ Hw) as (fs' & Hens & Hfile & Hdirs).
  exists fs'. split; [now apply write_file_Ok|]. now split.
Qed.

Lemma existing_file_writable root p old :
  p <> [] -> fs_lookup root p = Some (FFile old) -> writableb root p = true.
Proof.
  revert root. induction p as [|name p' IH]; intros root Hp Hfile;
    [congruence|].
  destruct root as [c|es]; [discriminate|]. rewrite fs_lookup_cons in Hfile.
  simpl. destruct p' as [|n2 p''].
  - destruct (entry_lookup name es) as [[c|es']|]; try reflexivity.
    discriminate.
  - destruct (entry_lookup name es) as [t|]; [|reflexivity].
    apply IH; [discriminate|exact Hfile].
Qed.

(** C9: the statements every File branch runs for each file it writes
    overwrite an existing regular file with the new content, and on any
    path that can hold a file they succeed and leave every proper prefix
    of the path a directory (missing parent directories were created,
    recursively, before the write) and the path a regular file with
    exactly the new content. *)
Theorem write_file_creates_parents_and_overwrites w p data :
  (forall old,
     p <> [] -> fs_lookup (w_fs w) p = Some (FFile old) ->
     exists fs',
       write_file p data w = (Ok tt, World fs' (w_stdout w) (w_next w)) /\
       fs_lookup fs' p = Some (FFile data)) /\
  (writable (w_fs w) p ->
   exists fs',
     write_file p data w = (Ok tt, World fs' (w_stdout w) (w_next w)) /\
     fs_lookup fs' p = Some (FFile data) /\
     (forall q r, p = q ++ r -> r <> [] ->
                  exists es, fs_lookup fs' q = Some (FDir es))).
Proof.
  split.
  - intros old Hp Hold.
    destruct (@write_file_writable w p data) as (fs' & Hwrite & Hfile & _).
    + apply writableb_writable. now apply existing_file_writable with old.
    + eauto.
  - apply write_file_writable.
Qed.

Lemma write_file_creates_parents_and_overwrites_witness :
  (exists fs',
     write_file [lit "notes.txt"] (lit "new") sample_world
       = (Ok tt, World fs' [] 10) /\
     fs_lookup fs' [lit "notes.txt"] = Some (FFile (lit "new"))) /\
  (exists fs',
     write_file [lit "out"; lit "docs"; lit "api.md"] (lit "# Users")
       sample_world = (Ok tt, World fs' [] 10) /\
     fs_lookup fs' [lit "out"; lit "docs"; lit "api.md"]
       = Some (FFile (lit "# Users")) /\
     (forall q r, [lit "out"; lit "docs"; lit "api.md"] = q ++ r -> r <> [] ->
                  exists es, fs_lookup fs' q = Some (FDir es))).
Proof.
  split.
  - apply (proj1 (@write_file_creates_parents_and_overwrites sample_world
                    [lit "notes.txt"] (lit "new")) []).
    + discriminate.
    + reflexivity.
  - apply (proj2 (@write_file_creates_parents_and_overwrites sample_world
                    [lit "out"; lit "docs"; lit "api.md"] (lit "# Users"))).
    apply writableb_writable. reflexivity.
Defined.

(** ** The versioning branch sorts first *)

Lemma StronglySorted_impl {A} (R R' : A -> A -> Prop) l :
  (forall a b, In a l -> In b l -> R a b -> R' a b) ->
  StronglySorted R l -> StronglySorted R' l.
Proof.
  intros Himp Hs. induction Hs as [|h t Hs IH Hh]; constructor.
  - apply IH. intros a b Ha Hb. apply Himp; now right.
  - rewrite Forall_forall in *. intros y Hy.
    apply Himp; [now left|now right|now apply Hh].
Qed.

Lemma compare_first_char_le a b :
  first_char a <> None -> first_char b <> None ->
  (compare_first_char a b <= 0)%Z -> first_char_le a b.
Proof.
  unfold compare_first_char, first_char_le.
  destruct (first_char a) as [x|], (first_char b) as [y|]; try congruence.
  intros _ _. simpl.
  destruct (N.ltb_spec x y); [lia|]. destruct (N.ltb_spec y x); lia.
Qed.

Lemma orders_consistently_named es :
  (forall e, In e es -> first_char e <> None) ->
  orders_consistently es = true.
Proof.
  intros Hne. unfold orders_consistently. apply orb_true_intro. left.
  apply forallb_forall. intros e He. specialize (Hne e He).
  now destruct (first_char e).
Qed.

Lemma sort_endpoints_sorted env es :
  (forall e, In e es -> first_char e <> None) ->
  sort_endpoints env es = Ok (array_sort compare_first_char es) /\
  sorted_by_first_char es (array_sort compare_first_char es).
Proof.
  intros Hne. split.
  - destruct es as [|e1 [|e2 es]]; try reflexivity.
    unfold sort_endpoints. rewrite (orders_consistently_named _ Hne).
    replace (forallb has_displayName (e1 :: e2 :: es)) with true;
      [reflexivity|].
    symmetry. apply forallb_forall. intros e He. specialize (Hne e He).
    unfold first_char, has_displayName in *.
    now destruct (displayName e).
  - split; [apply array_sort_perm|]. split.
    + apply StronglySorted_impl with (R := cmp_le compare_first_char).
      * intros a b Ha Hb. apply array_sort_In in Ha, Hb.
        apply compare_first_char_le; auto.
      * apply array_sort_sorted_on with (Q := fun e => first_char e <> None).
        -- intros a b Ha Hb. unfold compare_first_char.
           destruct (first_char a) as [x|], (first_char b) as [y|];
             try congruence. simpl.
           destruct (N.ltb_spec x y), (N.ltb_spec y x); lia.
        -- intros a b c Ha Hb Hc. unfold compare_first_char.
           destruct (first_char a) as [x|], (first_char b) as [y|],
                    (first_char c) as [z|]; try congruence. simpl.
           destruct (N.ltb_spec x y), (N.ltb_spec y x), (N.ltb_spec y z),
                    (N.ltb_spec z y), (N.ltb_spec x z), (N.ltb_spec z x); lia.
        -- now apply Forall_forall.
    + intros c. apply array_sort_stable. intros a b.
      unfold has_first_char, compare_first_char.
      destruct (first_char a) as [x|], (first_char b) as [y|];
        try discriminate.
      intros Hx Hy. apply N.eqb_eq in Hx, Hy. subst. simpl.
      rewrite N.ltb_irrefl. lia.
Qed.

Lemma sort_version_sorted env v :
  (forall e, In e (resources_list v) -> first_char e <> None) ->
  exists v', sort_version env v = Ok v' /\ version_sorted v v'.
Proof.
  unfold sort_version, version_sorted, resources_list.
  destruct (resources v) as [[lv [|e es]]|]; intros Hne; eauto.
  destruct (sort_endpoints_sorted env _ Hne) as [-> Hs]. simpl. eauto.
Qed.

Lemma sort_versions_sorted env versions :
  (forall v e, In v versions -> In e (resources_list v) ->
               first_char e <> None) ->
  exists versions',
    mapM (sort_version env) versions = Ok versions' /\
    Forall2 version_sorted versions versions'.
Proof.
  induction versions as [|v t IH]; intros Hne.
  - exists []. split; [reflexivity|constructor].
  - destruct (@sort_version_sorted env v) as (v' & Hv & Hs).
    { intros e. apply Hne. now left. }
    destruct IH as (t' & Ht & Hs').
    { intros v0 e Hv0. apply Hne. now right. }
    exists (v' :: t'). split; [|now constructor].
    simpl. now rewrite Hv, Ht.
Qed.




(** ** ReturnOnly and AllInOne *)

Lemma render_items_Ok env st files rendered :
  Forall2 (fun item r => nunjucks_render env (templateFile st) item = Ok r)
    files rendered ->
  mapM (render_item env st) files
  = Ok (map (filter_output (contentFilter st)) rendered).
Proof.
  intros H. apply Forall2_mapM.
  induction H as [|item r files rendered Hr _ IH]; simpl; constructor; auto.
  unfold render_item. now rewrite Hr.
Qed.

Lemma filter_output_post_processed cf rendered :
  filter_output cf rendered = post_processed cf rendered.
Proof.
  unfold filter_output, post_processed. destruct cf as [f|]; [|reflexivity].
  now destruct (f rendered) as [| | | | |[|c s]].
Qed.

Lemma jsstring_eqb_true a : forall b, jsstring_eqb a b = true -> a = b.
Proof.
  induction a as [|x a IH]; destruct b as [|y b]; simpl; try easy.
  intros H. apply andb_prop in H as [Hxy Hab].
  apply N.eqb_eq in Hxy. apply IH in Hab. congruence.
Qed.

Lemma entry_lookup_set_other a b t es :
  jsstring_eqb a b = false ->
  entry_lookup b (entry_set a t es) = entry_lookup b es.
Proof.
  intros Hab. induction es as [|[n t0] rest IH]; simpl.
  - destruct (jsstring_eqb b a) eqn:Hba; [|reflexivity].
    apply jsstring_eqb_true in Hba. subst.
    now rewrite jsstring_eqb_refl in Hab.
  - destruct (jsstring_eqb a n) eqn:Han; simpl.
    + apply jsstring_eqb_true in Han. subst n.
      destruct (jsstring_eqb b a) eqn:Hba; [|reflexivity].
      apply jsstring_eqb_true in Hba. subst.
      now rewrite jsstring_eqb_refl in Hab.
    + now rewrite IH.
Qed.

Lemma mkdirp_apart p :
  forall root root' q,
    mkdirp root p = Ok root' -> apart p q = true ->
    fs_lookup root' q = fs_lookup root q.
Proof.
  unfold mkdirp.
  induction p as [|a p IH]; intros root root' q; [discriminate 2|].
  destruct q as [|b q]; [discriminate 2|].
  destruct p as [|a2 p].
  - simpl. destruct root; [discriminate|]. now intros [= <-].
  - change (removelast (a :: a2 :: p)) with (a :: removelast (a2 :: p)).
    destruct root as [c|es]; [discriminate|]. rewrite mkdirs_cons.
    destruct (mkdirs _ (removelast (a2 :: p))) as [sub'|e] eqn:E;
      [|discriminate].
    intros [= <-]. rewrite !fs_lookup_cons.
    change (apart (a :: a2 :: p) (b :: q))
      with (if jsstring_eqb a b then apart (a2 :: p) q else true).
    destruct (jsstring_eqb a b) eqn:Hab; intros Hq.
    + apply jsstring_eqb_true in Hab. subst b.
      rewrite entry_lookup_set. rewrite (IH _ _ q E Hq).
      destruct (entry_lookup a es); [reflexivity|].
      destruct q as [|b q]; [discriminate Hq|reflexivity].
    + now rewrite entry_lookup_set_other.
Qed.

Lemma writeFileSync_apart data p :
  forall root root' q,
    writeFileSync root p data = Ok root' -> apart p q = true ->
    fs_lookup root' q = fs_lookup root q.
Proof.
  induction p as [|a p IH]; intros root root' q; [discriminate 1|].
  destruct q as [|b q]; [discriminate 2|].
  destruct root as [c|es]; [discriminate|].
  change (apart (a :: p) (b :: q))
    with (if jsstring_eqb a b then apart p q else true).
  destruct p as [|a2 p].
  - simpl apart. destruct (jsstring_eqb a b) eqn:Hab; [discriminate 2|].
    simpl. destruct (entry_lookup a es) as [[c|es']|]; try discriminate;
      intros [= <-] _; simpl; now rewrite entry_lookup_set_other.
  - rewrite writeFileSync_cons.
    destruct (entry_lookup a es) as [t|] eqn:Ea; [|discriminate].
    destruct (writeFileSync t (a2 :: p) data) as [t'|e] eqn:E;
      [|discriminate].
    intros [= <-]. rewrite !fs_lookup_cons.
    destruct (jsstring_eqb a b) eqn:Hab; intros Hq.
    + apply jsstring_eqb_true in Hab. subst b.
      rewrite entry_lookup_set, Ea. exact (IH _ _ q E Hq).
    + now rewrite entry_lookup_set_other.
Qed.

Lemma ensure_and_write_apart root p data root' q :
  ensure_and_write root p data = Ok root' -> apart p q = true ->
  fs_lookup root' q = fs_lookup root q.
Proof.
  unfold ensure_and_write. intros H Hq.
  apply bind_Ok in H as (fs1 & Hdirs & Hwrite).
  rewrite (writeFileSync_apart _ _ _ q Hwrite Hq).
  destruct (existsSync root p); [now injection Hdirs as <-|].
  exact (mkdirp_apart _ _ q Hdirs Hq).
Qed.

Lemma write_file_Ok_inv p data w w' :
  write_file p data w = (Ok tt, w') ->
  ensure_and_write (w_fs w) p data = Ok (w_fs w').
Proof.
  unfold write_file, ensure_and_write.
  destruct (if existsSync (w_fs w) p then Ok (w_fs w) else mkdirp (w_fs w) p)
    as [fs1|e]; [|discriminate].
  simpl. destruct (writeFileSync fs1 p data); [|discriminate].
  now intros [= <-].
Qed.

(** C7: when [parse] resolves to [files] and the template engine renders
    them to [rendered], [render] with output type ReturnOnly resolves to
    the texts, each replaced by the truthy answer of the output content
    filter, joined by three line feeds, and leaves the file system and
    standard output untouched; with File/AllInOne that same text is
    written to the configured output file, every path that leaves the
    path of that file is as it was, nothing is printed and [render]
    resolves to [undefined]. *)
Theorem render_joins_documents env u w files rendered :
  parse env (w_fs w) u = Ok files ->
  Forall2
    (fun item r =>
       nunjucks_render env
         (path_resolve env (input_templateFile (extend (DefaultConfig env) u)))
         item = Ok r)
    files rendered ->
  (output_type (extend (DefaultConfig env) u) = ReturnOnly ->
   render env u w =
   (Ok (Some (join [10; 10; 10]%N
                (map (post_processed
                        (output_contentFilter (extend (DefaultConfig env) u)))
                     rendered))), w)) /\
  (output_type (extend (DefaultConfig env) u) = File ->
   output_file_splitting (extend (DefaultConfig env) u) = AllInOne ->
   forall p, output_file_path (extend (DefaultConfig env) u) = Some p ->
   writable (w_fs w) (path_resolve env p) ->
   exists fs',
     render env u w = (Ok None, World fs' (w_stdout w) (w_next w)) /\
     fs_lookup fs' (path_resolve env p) =
     Some (FFile (join [10; 10; 10]%N
                    (map (post_processed
                            (output_contentFilter
                               (extend (DefaultConfig env) u)))
                         rendered))) /\
     (forall q, apart (path_resolve env p) q = true ->
                fs_lookup fs' q = fs_lookup (w_fs w) q)).
Proof.
  intros Hparse Hrendered.
  set (config := extend (DefaultConfig env) u) in *.
  pose proof (render_items_Ok env (settings_of env config) Hrendered) as Hmap.
  change (contentFilter (settings_of env config))
    with (output_contentFilter config) in Hmap.
  rewrite (map_ext _ _ (filter_output_post_processed
                          (output_contentFilter config))) in Hmap.
  split.
  - intros Htype. unfold render. rewrite Hparse. fold config.
    unfold dispatch.
    change (outputType (settings_of env config)) with (output_type config).
    rewrite Htype. unfold mbind, lift, ret. now rewrite Hmap.
  - intros Htype Hsplit p Hp Hw.
    destruct (write_file_writable w
                (join separator
                   (map (post_processed (output_contentFilter config))
                      rendered))
                Hw) as (fs' & Hwrite & Hfile & _).
    exists fs'. split; [|split; [exact Hfile|]].
    + unfold render. rewrite Hparse. fold config.
      unfold dispatch.
      change (outputType (settings_of env config)) with (output_type config).
      change (outputSplitting (settings_of env config))
        with (output_file_splitting config).
      rewrite Htype, Hsplit. unfold mbind, lift, ret. rewrite Hmap.
      change (outputPath (settings_of env config))
        with (match output_file_path config with
              | Some p => Some (path_resolve env p)
              | None => None
              end).
      rewrite Hp. now rewrite Hwrite.
    + intros q Hq. apply write_file_Ok_inv in Hwrite.
      exact (ensure_and_write_apart _ _ _ q Hwrite Hq).
Qed.

Lemma render_joins_documents_witness :
  (exists d,
     parse sample_env sample_fs (with_paths ["api.raml"; "api.raml"]%string)
     = Ok [d; d] /\
     render sample_env
       (with_output_filter (with_paths ["api.raml"; "api.raml"]%string)
          exclaim)
       sample_world
     = (Ok (Some
              ((sample_text [lit "/lib/../templates/index.njk"] d ++ lit "!")
               ++ [10; 10; 10]%N ++
               (sample_text [lit "/lib/../templates/index.njk"] d ++ lit "!"))),
        sample_world)) /\
  (exists d fs',
     parse sample_env sample_fs (with_paths ["api.raml"; "api.raml"]%string)
     = Ok [d; d] /\
     render sample_env
       (with_output_filter
          (to_files ["api.raml"; "api.raml"]%string AllInOne "all.md" None)
          exclaim)
       sample_world
     = (Ok None, World fs' [] 10) /\
     fs_lookup fs' [lit "all.md"]
     = Some (FFile
               ((sample_text [lit "/lib/../templates/index.njk"] d ++ lit "!")
                ++ [10; 10; 10]%N ++
                (sample_text [lit "/lib/../templates/index.njk"] d
                 ++ lit "!"))) /\
     fs_lookup fs' [lit "notes.txt"] = Some (FFile [])).
Proof.
  split.
  - edestruct (@render_joins_documents sample_env
                 (with_output_filter
                    (with_paths ["api.raml"; "api.raml"]%string) exclaim)
                 sample_world)
      as [Hreturn _].
    + vm_compute. reflexivity.
    + constructor; [reflexivity|]. constructor; [reflexivity|]. constructor.
    + eexists. split; [vm_compute; reflexivity|].
      rewrite (Hreturn eq_refl). reflexivity.
  - edestruct (@render_joins_documents sample_env
                 (with_output_filter
                    (to_files ["api.raml"; "api.raml"]%string AllInOne
                       "all.md" None) exclaim)
                 sample_world)
      as [_ Hfile].
    + vm_compute. reflexivity.
    + constructor; [reflexivity|]. constructor; [reflexivity|]. constructor.
    + destruct (Hfile eq_refl eq_refl (lit "all.md") eq_refl)
        as (fs' & Hr & Hf & Hframe).
      { apply writableb_writable. reflexivity. }
      eexists. exists fs'. split; [vm_compute; reflexivity|].
      split; [exact Hr|]. split; [exact Hf|].
      exact (Hframe [lit "notes.txt"] eq_refl).
Defined.

(** ** The output content filter *)

Lemma mapM_ext {A B} (f g : A -> result B) xs :
  (forall x, f x = g x) -> mapM f xs = mapM g xs.
Proof.
  intros H. induction xs as [|x t IH]; simpl; [reflexivity|].
  now rewrite H, IH.
Qed.

Lemma mbind_ext {A B} (m m' : M A) (k k' : A -> M B) w :
  (forall w, m w = m' w) -> (forall a w, k a w = k' a w) ->
  mbind m k w = mbind m' k' w.
Proof.
  intros Hm Hk. unfold mbind. rewrite Hm.
  destruct (m' w) as [[a|e] w']; [apply Hk|reflexivity].
Qed.

Lemma each_ext {A} (f g : A -> M A) xs :
  (forall x w, f x w = g x w) -> forall w, each xs f w = each xs g w.
Proof.
  intros H. induction xs as [|x t IH]; intros w; simpl; [reflexivity|].
  apply mbind_ext; [apply H|]. intros a w1.
  apply mbind_ext; [apply IH|reflexivity].
Qed.

Lemma each_with_ext {A S} (f g : S -> A -> M S) xs :
  (forall s x w, f s x w = g s x w) ->
  forall s w, each_with xs f s w = each_with xs g s w.
Proof.
  intros H. induction xs as [|x t IH]; intros s w; simpl; [reflexivity|].
  apply mbind_ext; [apply H|]. intros a w1. apply IH.
Qed.

Section FilterExtensionality.
Variables (env : Env) (st : settings) (cf : option (jsstring -> filtered)).
Hypothesis Hsame :
  forall rendered,
    filter_output (contentFilter st) rendered = filter_output cf rendered.

Lemma render_item_ext item :
  render_item env st item = render_item env (with_contentFilter st cf) item.
Proof.
  unfold render_item. simpl.
  destruct (nunjucks_render env (templateFile st) item); simpl;
    [now rewrite Hsame|reflexivity].
Qed.

Lemma resource_page_ext name item res w :
  resource_page env st name item res w
  = resource_page env (with_contentFilter st cf) name item res w.
Proof.
  unfold resource_page. apply mbind_ext; [reflexivity|]. intros l w1.
  apply mbind_ext; [reflexivity|]. intros rendered w2.
  apply mbind_ext; [reflexivity|]. intros filePath w3.
  simpl. now rewrite Hsame.
Qed.

Lemma home_page_ext item w :
  home_page env st item w = home_page env (with_contentFilter st cf) item w.
Proof.
  unfold home_page. simpl. destruct (homeTemplateFile st); [|reflexivity].
  apply mbind_ext; [reflexivity|]. intros rendered w1.
  apply mbind_ext; [reflexivity|]. intros filePath w2.
  now rewrite Hsame.
Qed.

Lemma dispatch_ext files w :
  dispatch env st files w = dispatch env (with_contentFilter st cf) files w.
Proof.
  unfold dispatch. simpl.
  assert (Hmap : mapM (render_item env st) files
                 = mapM (render_item env (with_contentFilter st cf)) files)
    by (apply mapM_ext, render_item_ext).
  destruct (outputType st); [| |destruct (outputSplitting st)].
  - unfold mbind, lift. now rewrite Hmap.
  - unfold mbind, lift. now rewrite Hmap.
  - unfold mbind, lift. now rewrite Hmap.
  - apply mbind_ext; [|reflexivity]. apply each_ext. intros item w1.
    unfold one_per_resource. apply each_with_ext. intros s x w2.
    apply resource_page_ext.
  - apply mbind_ext; [|reflexivity]. apply each_ext. intros item w1.
    unfold one_per_resource_versioning.
    apply mbind_ext; [reflexivity|]. intros item1 w2.
    apply mbind_ext; [apply home_page_ext|]. intros _ w3.
    unfold version_pages. apply each_with_ext. intros s version w4.
    apply each_with_ext. intros s' res w5. apply resource_page_ext.
Qed.
End FilterExtensionality.

Lemma filter_output_closure f rendered :
  filter_output (Some f) rendered
  = filter_output (Some (replace_if_truthy f)) rendered.
Proof.
  unfold filter_output, replace_if_truthy.
  destruct (truthy (f rendered)) eqn:Ht; [now rewrite Ht|].
  destruct rendered; reflexivity.
Qed.

(** C3: where the output content filter returns a falsy value the
    rendered text itself is used, and this holds at every place the
    dispatcher calls the filter: for every output type and splitting the
    dispatcher behaves exactly as with the filter whose falsy answers are
    replaced by the text it was given. *)
Theorem output_filter_replace_if_truthy env st f :
  contentFilter st = Some f ->
  (forall rendered,
     truthy (f rendered) = false ->
     filter_output (contentFilter st) rendered = rendered) /\
  (forall files w,
     dispatch env st files w =
     dispatch env (with_contentFilter st (Some (replace_if_truthy f)))
       files w) /\
  ((forall rendered, truthy (f rendered) = false) ->
   forall files w,
     dispatch env st files w
     = dispatch env (with_contentFilter st None) files w).
Proof.
  intros Hf. split; [|split].
  - intros rendered Hfalsy. rewrite Hf. unfold filter_output.
    now rewrite Hfalsy.
  - intros files w. apply dispatch_ext. intros rendered. rewrite Hf.
    apply filter_output_closure.
  - intros Hfalsy files w. apply dispatch_ext. intros rendered. rewrite Hf.
    unfold filter_output. now rewrite Hfalsy.
Qed.

Lemma output_filter_replace_if_truthy_witness :
  filter_output (Some strip_all) (lit "# Users") = lit "# Users" /\
  forall files w,
    dispatch sample_env sample_settings files w =
    dispatch sample_env (with_contentFilter sample_settings None) files w.
Proof.
  destruct (@output_filter_replace_if_truthy sample_env sample_settings
              strip_all eq_refl) as (Hsite & _ & Hnone).
  split.
  - apply (Hsite (lit "# Users")). reflexivity.
  - apply Hnone. reflexivity.
Defined.

(** ** Per-resource pages *)

Section Pages.
Variables (env : Env) (st : settings) (R : path -> node -> jsstring).
Hypothesis Hrender : forall t n, nunjucks_render env t n = Ok (R t n).
Variable out : path.
Hypothesis Hout : outputPath st = Some out.

Lemma resource_page_Ok name item res w fs' :
  ensure_and_write (w_fs w) (path_join env out name)
    (filter_output (contentFilter st)
       (R (templateFile st) (set_resources item (Some (w_next w, [res])))))
  = Ok fs' ->
  resource_page env st name item res w =
  (Ok (set_resources item (Some (w_next w, [res]))),
   World fs' (w_stdout w) (S (w_next w))).
Proof.
  intros Hw. unfold resource_page, mbind, alloc, lift, output_file, ret.
  rewrite Hrender, Hout.
  now rewrite (write_file_Ok (World (w_fs w) (w_stdout w) (S (w_next w)))
                 _ _ Hw).
Qed.

Lemma home_page_Ok h item w fs' :
  homeTemplateFile st = Some h ->
  ensure_and_write (w_fs w) (path_join env out (lit "Home" ++ outputExt st))
    (filter_output (contentFilter st) (R h item)) = Ok fs' ->
  home_page env st item w = (Ok tt, World fs' (w_stdout w) (w_next w)).
Proof.
  intros Hh Hw. unfold home_page, mbind, lift, output_file.
  rewrite Hh, Hrender, Hout. now apply write_file_Ok.
Qed.
End Pages.

Lemma array_sort_two a b :
  array_sort compare_first_char [a; b] = in_first_char_order a b.
Proof.
  unfold in_first_char_order, compare_first_char. simpl.
  destruct (char_lt (first_char a) (first_char b)) eqn:Hab.
  - replace (char_lt (first_char b) (first_char a)) with false; [reflexivity|].
    unfold char_lt in *.
    destruct (first_char a), (first_char b); try reflexivity.
    symmetry. apply N.ltb_ge. apply N.ltb_lt in Hab. lia.
  - now destruct (char_lt (first_char b) (first_char a)).
Qed.

Lemma orders_consistently_two a b : orders_consistently [a; b] = true.
Proof.
  unfold orders_consistently, compare_first_char. simpl.
  destruct (first_char a) as [x|], (first_char b) as [y|]; simpl;
    rewrite ?N.ltb_irrefl; reflexivity.
Qed.

Lemma versioning_dispatch_one_group
  env st R out doc w l lv V E1 E2 Ea Eb da db :
  (forall t n, nunjucks_render env t n = Ok (R t n)) ->
  outputType st = File ->
  outputSplitting st = OnePerResourceVersioning ->
  outputPath st = Some out ->
  resources doc = Some (l, [V]) ->
  uniqueId V = Some (lit "v1") ->
  resources V = Some (lv, [E1; E2]) ->
  in_first_char_order E1 E2 = [Ea; Eb] ->
  displayName Ea = Some da ->
  displayName Eb = Some db ->
  forall fs',
    write_all (w_fs w)
      (match homeTemplateFile st with
       | Some home =>
         [(path_join env out (lit "Home" ++ outputExt st),
           filter_output (contentFilter st)
             (R home
                (set_resources doc
                   (Some (l, [set_resources V (Some (lv, [Ea; Eb]))])))))]
       | None => []
       end ++
       [(path_join env out (da ++ lit "_v1" ++ outputExt st),
         filter_output (contentFilter st)
           (R (templateFile st)
              (set_resources doc (Some (w_next w, [Ea])))));
        (path_join env out (db ++ lit "_v1" ++ outputExt st),
         filter_output (contentFilter st)
           (R (templateFile st)
              (set_resources doc (Some (S (w_next w), [Eb])))))])
    = Ok fs' ->
    dispatch env st [doc] w =
    (Ok ([set_resources doc (Some (S (w_next w), [Eb]))], None),
     World fs' (w_stdout w) (S (S (w_next w)))).
Proof.
  intros Hrender Htype Hsplit Hout Hdoc Huid HV Horder Hda Hdb fs' Hwrites.
  assert (Hnames : displayName E1 <> None /\ displayName E2 <> None).
  { unfold in_first_char_order in Horder.
    destruct (char_lt _ _); injection Horder as <- <-; split; congruence. }
  assert (Hsort : sort_versions env doc =
                  Ok (set_resources doc
                        (Some (l, [set_resources V (Some (lv, [Ea; Eb]))])))).
  { unfold sort_versions. rewrite Hdoc. simpl. unfold sort_version.
    rewrite HV.
    change (sort_endpoints env [E1; E2])
      with (if forallb has_displayName [E1; E2]
            then Ok (if orders_consistently [E1; E2]
                     then array_sort compare_first_char [E1; E2]
                     else engine_sort env [E1; E2])
            else Throw TypeError).
    rewrite orders_consistently_two.
    replace (forallb has_displayName [E1; E2]) with true.
    - now rewrite array_sort_two, Horder.
    - simpl. unfold has_displayName.
      destruct Hnames as [H1 H2].
      now destruct (displayName E1), (displayName E2). }
  set (doc_s := set_resources doc
                  (Some (l, [set_resources V (Some (lv, [Ea; Eb]))]))) in *.
  assert (Hpages : forall w1,
            w_next w1 = w_next w -> w_stdout w1 = w_stdout w ->
            write_all (w_fs w1)
              [(path_join env out (da ++ lit "_v1" ++ outputExt st),
                filter_output (contentFilter st)
                  (R (templateFile st)
                     (set_resources doc (Some (w_next w, [Ea])))));
               (path_join env out (db ++ lit "_v1" ++ outputExt st),
                filter_output (contentFilter st)
                  (R (templateFile st)
                     (set_resources doc (Some (S (w_next w), [Eb])))))]
            = Ok fs' ->
            version_pages env st doc_s w1 =
            (Ok (set_resources doc (Some (S (w_next w), [Eb]))),
             World fs' (w_stdout w) (S (S (w_next w))))).
  { intros w1 Hn Hs Hw. simpl in Hw.
    apply bind_Ok in Hw as (fs1 & Hw1 & Hw).
    apply bind_Ok in Hw as (fs2 & Hw2 & Hw). injection Hw as <-.
    unfold version_pages, resources_list. simpl. unfold mbind.
    rewrite Huid, Hda, Hdb.
    rewrite (resource_page_Ok env st R Hrender Hout _ doc_s Ea w1 (fs' := fs1));
      [|now rewrite Hn].
    rewrite (resource_page_Ok env st R Hrender Hout _ _ Eb _ (fs' := fs2));
      [|simpl; now rewrite Hn].
    simpl. now rewrite Hn, Hs. }
  unfold dispatch. rewrite Htype, Hsplit.
  unfold each, mbind at 1 2. unfold one_per_resource_versioning.
  unfold mbind at 1. unfold lift at 1. rewrite Hsort. unfold mbind at 1.
  destruct (homeTemplateFile st) as [home|] eqn:Hhome.
  - simpl in Hwrites. apply bind_Ok in Hwrites as (fs0 & Hw0 & Hwrites).
    rewrite (home_page_Ok env st R Hrender Hout doc_s w Hhome Hw0).
    rewrite (Hpages (World fs0 (w_stdout w) (w_next w)) eq_refl eq_refl
               Hwrites).
    reflexivity.
  - unfold home_page at 1. rewrite Hhome. unfold ret at 1.
    rewrite (Hpages w eq_refl eq_refl Hwrites). reflexivity.
Qed.

(** C5: with OnePerResourceVersioning and one document whose only version
    group [V] has [uniqueId] [v1] and the endpoint resources [E1] and [E2]
    ([Ea], [Eb] in the order of their first characters), [render] writes
    exactly these files, in this order: the home page [Home<ext>] when a
    home template is configured, rendered from the whole document, then
    [<Ea.displayName>_v1<ext>] and [<Eb.displayName>_v1<ext>], each
    rendered from the document with [resources] reduced to that one
    endpoint; it resolves when these writes succeed. *)
Theorem versioning_one_group_two_endpoints
  env u st R out doc w l lv V E1 E2 Ea Eb da db :
  settings_of env (extend (DefaultConfig env) u) = st ->
  parse env (w_fs w) u = Ok [doc] ->
  (forall t n, nunjucks_render env t n = Ok (R t n)) ->
  outputType st = File ->
  outputSplitting st = OnePerResourceVersioning ->
  outputPath st = Some out ->
  resources doc = Some (l, [V]) ->
  uniqueId V = Some (lit "v1") ->
  resources V = Some (lv, [E1; E2]) ->
  in_first_char_order E1 E2 = [Ea; Eb] ->
  displayName Ea = Some da ->
  displayName Eb = Some db ->
  forall fs',
    write_all (w_fs w)
      (match homeTemplateFile st with
       | Some home =>
         [(path_join env out (lit "Home" ++ outputExt st),
           filter_output (contentFilter st)
             (R home
                (set_resources doc
                   (Some (l, [set_resources V (Some (lv, [Ea; Eb]))])))))]
       | None => []
       end ++
       [(path_join env out (da ++ lit "_v1" ++ outputExt st),
         filter_output (contentFilter st)
           (R (templateFile st)
              (set_resources doc (Some (w_next w, [Ea])))));
        (path_join env out (db ++ lit "_v1" ++ outputExt st),
         filter_output (contentFilter st)
           (R (templateFile st)
              (set_resources doc (Some (S (w_next w), [Eb])))))])
    = Ok fs' ->
    render env u w = (Ok None, World fs' (w_stdout w) (S (S (w_next w)))).
Proof.
  intros Hst Hparse Hrender Htype Hsplit Hout Hdoc Huid HV Horder Hda Hdb
         fs' Hwrites.
  unfold render. rewrite Hparse, Hst.
  now rewrite (versioning_dispatch_one_group env st R doc w Hrender Htype
                 Hsplit Hout Hdoc Huid HV Horder Hda Hdb Hwrites).
Qed.

Lemma versioning_one_group_two_endpoints_witness :
  exists fs',
    render sample_env versioning_config sample_world
    = (Ok None, World fs' [] 12) /\
    map (existsSync fs')
      [[lit "out"; lit "Home.md"]; [lit "out"; lit "accounts_v1.md"];
       [lit "out"; lit "users_v1.md"]; [lit "out"; lit "Version 1_v1.md"]]
    = [true; true; true; false].
Proof.
  eexists. split.
  - eapply (@versioning_one_group_two_endpoints sample_env versioning_config
              versioning_settings sample_text [lit "out"] versioned_document
              sample_world 0 1 version_group users_endpoint accounts_endpoint
              accounts_endpoint users_endpoint
              (lit "accounts") (lit "users"));
      reflexivity.
  - vm_compute. reflexivity.
Defined.

(** ** What the per-resource branches leave of a document *)

Lemma mbind_Ok {A B} (m : M A) (k : A -> M B) w b w' :
  mbind m k w = (Ok b, w') ->
  exists a w1, m w = (Ok a, w1) /\ k a w1 = (Ok b, w').
Proof.
  unfold mbind. destruct (m w) as [[a|e] w1]; [eauto|discriminate].
Qed.

Lemma write_file_next p data w r w' :
  write_file p data w = (r, w') -> w_next w' = w_next w.
Proof.
  unfold write_file.
  destruct (if existsSync (w_fs w) p then _ else _) as [fs1|e];
    [destruct (writeFileSync fs1 p data)|]; now intros [= _ <-].
Qed.

Lemma resource_page_inv env st name item res w item' w' :
  resource_page env st name item res w = (Ok item', w') ->
  item' = set_resources item (Some (w_next w, [res])) /\
  w_next w' = S (w_next w).
Proof.
  unfold resource_page. intros H.
  apply mbind_Ok in H as (l & w1 & Hl & H). injection Hl as <- <-.
  apply mbind_Ok in H as (rendered & w2 & Hr & H). injection Hr as _ <-.
  apply mbind_Ok in H as (filePath & w3 & Hp & H). injection Hp as _ <-.
  apply mbind_Ok in H as ([] & w4 & Hw & H). apply write_file_next in Hw.
  injection H as <- <-. now split.
Qed.

Section PageLoops.
Variables (env : Env) (st : settings).

Lemma page_loop_inv (name : node -> jsstring) rs :
  forall item w item' w',
    each_with rs
      (fun item res => resource_page env st (name res) item res) item w
    = (Ok item', w') ->
    w_next w <= w_next w' /\
    (forall x, set_resources item' x = set_resources item x) /\
    (rs = [] -> item' = item) /\
    (forall pre r, rs = pre ++ [r] ->
       exists l', w_next w <= l' /\
                  item' = set_resources item (Some (l', [r]))).
Proof.
  induction rs as [|x t IH]; intros item w item' w' H.
  - injection H as <- <-. repeat split; auto.
    intros pre r Hpre. now destruct pre.
  - simpl in H. apply mbind_Ok in H as (item1 & w1 & Hpage & H).
    apply resource_page_inv in Hpage as [-> Hnext].
    destruct (IH _ _ _ _ H) as (Hmono & Hset & Hnil & Hlast).
    split; [lia|]. split; [intros y; now rewrite Hset|].
    split; [discriminate|].
    intros pre r Hpre. destruct pre as [|y pre]; simpl in Hpre.
    + injection Hpre as Hx Ht. subst x t. rewrite (Hnil eq_refl). eauto.
    + injection Hpre as Hx Ht. subst y t.
      destruct (Hlast pre r eq_refl) as (l' & Hl' & ->).
      exists l'. split; [lia|reflexivity].
Qed.

Lemma version_loop_inv (name : node -> node -> jsstring) versions :
  forall item w item' w',
    each_with versions
      (fun item version =>
         each_with (resources_list version)
           (fun item res => resource_page env st (name version res) item res)
           item)
      item w
    = (Ok item', w') ->
    w_next w <= w_next w' /\
    (forall x, set_resources item' x = set_resources item x) /\
    (flat_map resources_list versions = [] -> item' = item) /\
    (forall pre r, flat_map resources_list versions = pre ++ [r] ->
       exists l', w_next w <= l' /\
                  item' = set_resources item (Some (l', [r]))).
Proof.
  induction versions as [|v t IH]; intros item w item' w' H.
  - injection H as <- <-. repeat split; auto.
    intros pre r Hpre. now destruct pre.
  - simpl in H. apply mbind_Ok in H as (item1 & w1 & Hinner & H).
    apply (page_loop_inv (name v)) in Hinner
      as (Hmono1 & Hset1 & Hnil1 & Hlast1).
    destruct (IH _ _ _ _ H) as (Hmono & Hset & Hnil & Hlast).
    split; [lia|]. split; [intros y; now rewrite Hset, Hset1|].
    simpl flat_map. split.
    + intros Hempty. apply app_eq_nil in Hempty as [Hv Ht].
      now rewrite (Hnil Ht), (Hnil1 Hv).
    + intros pre r Hpre.
      destruct (flat_map resources_list t) as [|y ys] eqn:Ht.
      * rewrite app_nil_r in Hpre. rewrite (Hnil eq_refl).
        exact (Hlast1 pre r Hpre).
      * destruct (@exists_last _ (y :: ys)) as (pre' & r' & Hlast');
          [discriminate|].
        rewrite Hlast' in Hpre, Hlast. rewrite app_assoc in Hpre.
        apply app_inj_tail in Hpre as [_ ->].
        destruct (Hlast pre' r eq_refl) as (l' & Hl' & ->).
        exists l'. split; [lia|]. now rewrite <- Hset1.
Qed.
End PageLoops.

Lemma array_ids_unfold n :
  array_ids n =
  match resources n with
  | Some (l, xs) => l :: flat_map array_ids xs
  | None => []
  end ++
  flat_map array_ids (methods n) ++
  flat_map array_ids (responses n) ++
  flat_map array_ids (body n).
Proof. destruct n; reflexivity. Qed.

Lemma array_ids_resource n l xs r :
  resources n = Some (l, xs) -> In r xs ->
  forall i, In i (array_ids r) -> In i (flat_map array_ids xs).
Proof. intros _ Hr i Hi. apply in_flat_map. eauto. Qed.

Lemma sort_endpoints_In env es es' :
  sort_endpoints env es = Ok es' -> forall e, In e es' -> In e es.
Proof.
  unfold sort_endpoints. destruct es as [|e1 [|e2 es]].
  - now intros [= <-].
  - now intros [= <-].
  - destruct (forallb _ _); [|discriminate]. intros [= <-] e He.
    destruct (orders_consistently (e1 :: e2 :: es)).
    + exact (proj1 (array_sort_In compare_first_char (e1 :: e2 :: es) e) He).
    + apply Permutation_in with (engine_sort env (e1 :: e2 :: es));
        [|exact He].
      apply Permutation_sym, engine_sort_perm.
Qed.

Lemma sort_version_In env v v' :
  sort_version env v = Ok v' ->
  forall e, In e (resources_list v') -> In e (resources_list v).
Proof.
  unfold sort_version, resources_list.
  destruct (resources v) as [[lv [|e0 es]]|] eqn:Hv.
  - intros [= <-]. now rewrite Hv.
  - intros H. apply bind_Ok in H as (es' & Hs & [= <-]).
    intros e He. exact (sort_endpoints_In _ _ Hs e He).
  - intros [= <-]. now rewrite Hv.
Qed.

(** The last element of a non-empty list is one of its elements. *)
Lemma In_last {A} (pre : list A) r l : l = pre ++ [r] -> In r l.
Proof. intros ->. apply in_or_app. right. now left. Qed.

Lemma unreachable_after_pages item l0 rs0 l' res w :
  resources item = Some (l0, rs0) ->
  tree_shaped item -> allocated w item -> w_next w <= l' ->
  (forall i, In i (array_ids res) -> In i (flat_map array_ids rs0)) ->
  ~ In l0 (array_ids (set_resources item (Some (l', [res])))).
Proof.
  intros Hres Htree Halloc Hl' Hsub.
  unfold tree_shaped in Htree. unfold allocated in Halloc.
  rewrite array_ids_unfold in Htree, Halloc. rewrite Hres in Htree, Halloc.
  simpl in Htree. apply NoDup_cons_iff in Htree as [Hnotin _].
  specialize (Halloc l0 (or_introl eq_refl)).
  rewrite array_ids_unfold. destruct item; simpl in *.
  intros [Heq|Hin]; [lia|]. apply Hnotin.
  rewrite app_nil_r in Hin. apply in_app_or in Hin as [Hin|Hin].
  - apply in_or_app. left. now apply Hsub.
  - apply in_or_app. now right.
Qed.

Section BranchEffect.
Variables (env : Env) (st : settings).

Lemma one_per_resource_effect item w item' w' :
  one_per_resource env st item w = (Ok item', w') ->
  w_next w <= w_next w' /\ page_loop_effect env OnePerResource w item item'.
Proof.
  unfold one_per_resource. intros H.
  apply (page_loop_inv env st
           (fun res => to_string (displayName res) ++ outputExt st)) in H
    as (Hmono & _ & Hnil & Hlast).
  split; [exact Hmono|]. exists item. split; [reflexivity|].
  split; [exact Hnil|]. simpl. intros pre res Hpre.
  destruct (Hlast pre res Hpre) as (l' & Hl' & ->).
  exists l'. split; [exact Hl'|]. split; [reflexivity|].
  intros l0 rs0 Hres Htree Halloc.
  apply unreachable_after_pages with rs0 w; auto.
  apply array_ids_resource with item l0; auto.
  apply In_last in Hpre. unfold resources_list in Hpre.
  now rewrite Hres in Hpre.
Qed.

Lemma home_page_next item w r w' :
  home_page env st item w = (r, w') -> w_next w' = w_next w.
Proof.
  unfold home_page. destruct (homeTemplateFile st) as [h|].
  - unfold mbind, lift.
    destruct (nunjucks_render env h item); [|now intros [= _ <-]].
    destruct (output_file env st _); [|now intros [= _ <-]].
    apply write_file_next.
  - now intros [= _ <-].
Qed.

Lemma one_per_resource_versioning_effect item w item' w' :
  one_per_resource_versioning env st item w = (Ok item', w') ->
  w_next w <= w_next w' /\
  page_loop_effect env OnePerResourceVersioning w item item'.
Proof.
  unfold one_per_resource_versioning. intros H.
  apply mbind_Ok in H as (item0 & w0 & Hsort & H).
  unfold lift in Hsort. injection Hsort as Hsort <-.
  apply mbind_Ok in H as ([] & w1 & Hhome & H).
  apply home_page_next in Hhome.
  unfold version_pages in H.
  apply (version_loop_inv env st
           (fun version res =>
              to_string (displayName res) ++ lit "_" ++
              to_string (uniqueId version) ++ outputExt st)) in H
    as (Hmono & _ & Hnil & Hlast).
  split; [lia|]. exists item0. split; [exact Hsort|].
  split; [exact Hnil|]. simpl. intros pre res Hpre.
  destruct (Hlast pre res Hpre) as (l' & Hl' & ->).
  unfold sort_versions in Hsort.
  destruct (resources item) as [[l versions]|] eqn:Hres; [|discriminate].
  apply bind_Ok in Hsort as (versions' & Hmap & [= <-]).
  exists l'. split; [now rewrite <- Hhome|]. split; [reflexivity|].
  intros l0 rs0 [= <- <-] Htree Halloc.
  change (~ In l (array_ids (set_resources item (Some (l', [res]))))).
  apply unreachable_after_pages with versions w; auto;
    [now rewrite <- Hhome|].
  apply In_last in Hpre. unfold resources_list at 2 in Hpre.
  simpl in Hpre. apply in_flat_map in Hpre as (v' & Hv' & Hin).
  apply mapM_Ok in Hmap.
  destruct (Forall2_In_r Hmap Hv') as (v & Hv & Hsv).
  apply (sort_version_In _ _ Hsv) in Hin.
  intros i Hi. apply in_flat_map. exists v. split; [exact Hv|].
  rewrite array_ids_unfold. apply in_or_app. left.
  unfold resources_list in Hin.
  destruct (resources v) as [[lv es]|]; [|contradiction].
  right. apply in_flat_map. eauto.
Qed.
End BranchEffect.

Lemma each_Forall2 {A} (f : A -> M A) (Q : world -> A -> A -> Prop) :
  (forall x w y w', f x w = (Ok y, w') -> w_next w <= w_next w' /\ Q w x y) ->
  (forall w1 w2 x y, w_next w1 <= w_next w2 -> Q w2 x y -> Q w1 x y) ->
  forall xs w ys w', each xs f w = (Ok ys, w') -> Forall2 (Q w) xs ys.
Proof.
  intros Hf Hanti. induction xs as [|x t IH]; intros w ys w' H.
  - injection H as <- _. constructor.
  - simpl in H. apply mbind_Ok in H as (y & w1 & Hx & H).
    apply mbind_Ok in H as (t' & w2 & Ht & H). injection H as <- _.
    destruct (Hf _ _ _ _ Hx) as [Hmono HQ].
    constructor; [exact HQ|].
    apply IH in Ht. revert Ht. apply Forall2_impl.
    intros a b. now apply Hanti.
Qed.

Lemma page_loop_effect_earlier env splitting w1 w2 item item' :
  w_next w1 <= w_next w2 ->
  page_loop_effect env splitting w2 item item' ->
  page_loop_effect env splitting w1 item item'.
Proof.
  intros Hle (item0 & Hbefore & Hnil & Hlast).
  exists item0. split; [exact Hbefore|]. split; [exact Hnil|].
  intros pre res Hpre. destruct (Hlast pre res Hpre) as (l' & Hl' & Heq & Hun).
  exists l'. split; [lia|]. split; [exact Heq|].
  intros l0 rs0 Hres Htree Halloc. apply (Hun l0 rs0 Hres Htree).
  intros i Hi. specialize (Halloc i Hi). lia.
Qed.

(** C10, as amended: after a per-resource branch has finished, a document
    for which at least one page was rendered has its [resources] field
    replaced, in place, by a fresh one-element array holding the last
    resource rendered for it, and (the document being a tree of arrays
    allocated earlier) its original top-level array is no longer found in
    it; a document for which no page was rendered keeps the [resources]
    it had when its page loop started. *)
Theorem per_resource_branches_leave_last_resource
  env st files w files' result w' :
  outputType st = File ->
  outputSplitting st <> AllInOne ->
  dispatch env st files w = (Ok (files', result), w') ->
  Forall2 (page_loop_effect env (outputSplitting st) w) files files'.
Proof.
  intros Htype Hsplit H. unfold dispatch in H. rewrite Htype in H.
  destruct (outputSplitting st); [congruence| |];
    apply mbind_Ok in H as (ys & w1 & Heach & H); injection H as <- _ _.
  - revert Heach. apply each_Forall2.
    + apply one_per_resource_effect.
    + intros w1' w2 x y. apply page_loop_effect_earlier.
  - revert Heach. apply each_Forall2.
    + apply one_per_resource_versioning_effect.
    + intros w1' w2 x y. apply page_loop_effect_earlier.
Qed.

Lemma per_resource_branches_leave_last_resource_witness :
  Forall2 (page_loop_effect sample_env OnePerResourceVersioning sample_world)
    [versioned_document]
    [set_resources versioned_document (Some (11, [users_endpoint]))].
Proof.
  apply (@per_resource_branches_leave_last_resource sample_env
           versioning_settings [versioned_document] sample_world
           [set_resources versioned_document (Some (11, [users_endpoint]))]
           None
           (snd (dispatch sample_env versioning_settings [versioned_document]
                   sample_world))).
  - reflexivity.
  - discriminate.
  - vm_compute. reflexivity.
Defined.

(** C10, as first stated, fails on a document without resources: [parse]
    resolves to it, the OnePerResource branch renders no page for it and
    leaves its empty [resources] array, which is not a one-element array,
    in place. *)
Lemma empty_document_keeps_resources :
  parse sample_env sample_fs types_config = Ok [resourceless_document] /\
  dispatch sample_env
    (settings_of sample_env (extend (DefaultConfig sample_env) types_config))
    [resourceless_document] sample_world
  = (Ok ([resourceless_document], None), sample_world) /\
  resources resourceless_document = Some (0, []) /\
  ~ (exists l res, resources resourceless_document = Some (l, [res])).
Proof.
  split; [reflexivity|]. split; [reflexivity|]. split; [reflexivity|].
  intros (l & res & H). discriminate.
Qed.

(** * Further properties of the code *)

(** ** The default output content filter *)

Lemma has_blank_runb_spec s : has_blank_runb s = true <-> has_blank_run s.
Proof.
  induction s as [|a t IH].
  - split; [discriminate|]. intros (pre & post & H). now destruct pre.
  - simpl. rewrite orb_true_iff, IH. split.
    + intros [H|(pre & post & ->)].
      * destruct t as [|b [|c t']]; try discriminate.
        apply andb_true_iff in H as [H Hc]. apply andb_true_iff in H as [Ha Hb].
        apply N.eqb_eq in Ha, Hb, Hc. subst. now exists [], t'.
      * now exists (a :: pre), post.
    + intros (pre & post & H). destruct pre as [|x pre]; simpl in H.
      * left. injection H as -> ->. reflexivity.
      * right. injection H as -> ->. now exists pre, post.
Qed.

Lemma flush_run_cases r :
  flush_run r = [] \/ flush_run r = [10]%N \/ flush_run r = [10; 10]%N.
Proof. destruct r as [|[|[|r]]]; cbv; auto. Qed.

Lemma flush_run_small r : r <= 2 -> flush_run r = repeat 10%N r.
Proof. destruct r as [|[|[|r]]]; [reflexivity..|lia]. Qed.

Lemma flush_run_length r : List.length (flush_run r) <= r.
Proof. destruct r as [|[|[|r]]]; cbv [flush_run Nat.leb List.length repeat]; lia. Qed.

Lemma blank_run_after_other c s :
  N.eqb c 10 = false ->
  forall r, has_blank_runb (flush_run r ++ c :: s) = has_blank_runb s.
Proof.
  intros Hc r.
  assert (H0 : has_blank_runb (c :: s) = has_blank_runb s).
  { simpl. rewrite Hc. now destruct s as [|b [|d s']]. }
  assert (H1 : has_blank_runb (10%N :: c :: s) = has_blank_runb s).
  { rewrite <- H0. simpl. rewrite Hc. now destruct s. }
  destruct (flush_run_cases r) as [->|[->| ->]]; simpl app; auto.
  rewrite <- H1. simpl. now rewrite Hc.
Qed.

Lemma collapse_newlines_no_blank_run s :
  forall r, has_blank_runb (collapse_newlines r s) = false.
Proof.
  induction s as [|c s IH]; intros r; simpl.
  - destruct (flush_run_cases r) as [->|[->| ->]]; reflexivity.
  - destruct (N.eqb c 10) eqn:Hc; [apply IH|].
    rewrite blank_run_after_other by exact Hc. apply IH.
Qed.

Lemma repeat_app_cons {A} (x : A) r s :
  repeat x r ++ x :: s = repeat x (S r) ++ s.
Proof. induction r as [|r IH]; simpl; [reflexivity|]. now rewrite IH. Qed.

Lemma blank_run_suffix a b :
  has_blank_runb (a ++ b) = false -> has_blank_runb b = false.
Proof.
  intros H. destruct (has_blank_runb b) eqn:Hb; [|reflexivity].
  apply has_blank_runb_spec in Hb as (pre & post & ->).
  assert (Habs : has_blank_runb (a ++ pre ++ [10; 10; 10]%N ++ post) = true).
  { apply has_blank_runb_spec. exists (a ++ pre), post. now rewrite <- app_assoc. }
  congruence.
Qed.

Lemma blank_run_free_prefix r s :
  has_blank_runb (repeat 10%N r ++ s) = false -> r <= 2.
Proof.
  destruct r as [|[|[|r]]]; try lia. simpl. discriminate.
Qed.

Lemma collapse_newlines_fixed s :
  forall r, has_blank_runb (repeat 10%N r ++ s) = false ->
            collapse_newlines r s = repeat 10%N r ++ s.
Proof.
  induction s as [|c s IH]; intros r H; simpl.
  - rewrite app_nil_r. apply flush_run_small.
    now apply blank_run_free_prefix with [].
  - destruct (N.eqb c 10) eqn:Hc.
    + apply N.eqb_eq in Hc. subst c. rewrite repeat_app_cons in *.
      now apply IH.
    + rewrite flush_run_small by (now apply blank_run_free_prefix with (c :: s)).
      f_equal. f_equal. apply (IH 0). simpl.
      apply blank_run_suffix with (repeat 10%N r ++ [c]).
      now rewrite <- app_assoc.
Qed.

Lemma collapse_newlines_keeps_text s :
  forall r, without_line_feeds (collapse_newlines r s) = without_line_feeds s.
Proof.
  unfold without_line_feeds.
  induction s as [|c s IH]; intros r; simpl.
  - destruct (flush_run_cases r) as [->|[->| ->]]; reflexivity.
  - destruct (N.eqb c 10) eqn:Hc; simpl; [apply IH|].
    rewrite filter_app. simpl. rewrite Hc. simpl. rewrite IH.
    destruct (flush_run_cases r) as [->|[->| ->]]; reflexivity.
Qed.

Lemma collapse_newlines_length s :
  forall r, List.length (collapse_newlines r s) <= r + List.length s.
Proof.
  induction s as [|c s IH]; intros r; simpl.
  - pose proof (flush_run_length r). lia.
  - destruct (N.eqb c 10).
    + specialize (IH (S r)). lia.
    + rewrite length_app. simpl. pose proof (flush_run_length r).
      specialize (IH 0). lia.
Qed.

Lemma collapse_newlines_nonempty s :
  forall r, 0 < r -> collapse_newlines r s <> [].
Proof.
  induction s as [|c s IH]; intros r Hr; simpl.
  - destruct r as [|[|[|r]]]; [lia|discriminate..].
  - destruct (N.eqb c 10); [apply IH; lia|].
    intros H. apply app_eq_nil in H as [_ H]. discriminate.
Qed.

(** Under the default configuration the fallback of the filter sites never
    changes the result: the default filter answers the empty string only
    for the empty text. *)
Lemma default_filtered_collapse env rendered :
  default_filtered env rendered = collapse_newlines 0 rendered.
Proof.
  unfold default_filtered. simpl. unfold filter_output. simpl.
  destruct (collapse_newlines 0 rendered) as [|c s] eqn:H; [|reflexivity].
  destruct rendered as [|c s]; [reflexivity|]. simpl in H.
  destruct (N.eqb c 10); [|discriminate].
  exfalso. apply (@collapse_newlines_nonempty s 1); [lia|exact H].
Qed.

(** X1: whatever the template engine produced, the text the dispatcher
    uses under the default output content filter has no three line feeds
    in a row. *)
Theorem default_filter_leaves_no_blank_run env rendered :
  ~ has_blank_run (default_filtered env rendered).
Proof.
  rewrite default_filtered_collapse. intros H.
  apply has_blank_runb_spec in H.
  now rewrite collapse_newlines_no_blank_run in H.
Qed.

(** X2: the default output content filter changes nothing in a text
    without three line feeds in a row, and so filtering twice is filtering
    once. *)
Theorem default_filter_idempotent env rendered :
  (~ has_blank_run rendered -> default_filtered env rendered = rendered) /\
  default_filtered env (default_filtered env rendered)
  = default_filtered env rendered.
Proof.
  assert (Hfix : forall s, has_blank_runb s = false ->
                           default_filtered env s = s).
  { intros s Hs. rewrite default_filtered_collapse.
    now apply (collapse_newlines_fixed s 0). }
  split.
  - intros Hfree. apply Hfix.
    destruct (has_blank_runb rendered) eqn:Hb; [|reflexivity].
    now apply has_blank_runb_spec in Hb.
  - apply Hfix. rewrite default_filtered_collapse.
    apply collapse_newlines_no_blank_run.
Qed.

Lemma default_filter_idempotent_witness :
  default_filtered sample_env (js_string_literal "# Users\n\nGET /users\n")
  = js_string_literal "# Users\n\nGET /users\n".
Proof.
  apply (proj1 (@default_filter_idempotent sample_env
                  (js_string_literal "# Users\n\nGET /users\n"))).
  intros H. apply has_blank_runb_spec in H. discriminate.
Defined.

(** X3: the default output content filter only removes line feeds: the
    other characters stay, in their order, and the text never grows. *)
Theorem default_filter_only_removes_line_feeds env rendered :
  without_line_feeds (default_filtered env rendered)
  = without_line_feeds rendered /\
  List.length (default_filtered env rendered) <= List.length rendered.
Proof.
  rewrite default_filtered_collapse. split.
  - apply collapse_newlines_keeps_text.
  - apply (collapse_newlines_length rendered 0).
Qed.

(** ** What render touches *)

Section Frames.
(** [P w w'] relates the world before a step to the world after it. *)
Variable P : world -> world -> Prop.
Hypothesis P_refl : forall w, P w w.
Hypothesis P_trans : forall w1 w2 w3, P w1 w2 -> P w2 w3 -> P w1 w3.

Lemma keeps_ret {A} (a : A) : keeps P (ret a).
Proof. intros w r w' [= _ <-]. apply P_refl. Qed.

Lemma keeps_lift {A} (x : result A) : keeps P (lift x).
Proof. intros w r w' [= _ <-]. apply P_refl. Qed.

Lemma keeps_mbind {A B} (m : M A) (k : A -> M B) :
  keeps P m -> (forall a, keeps P (k a)) -> keeps P (mbind m k).
Proof.
  intros Hm Hk w r w'. unfold mbind.
  destruct (m w) as [[a|e] w1] eqn:E.
  - intros H. apply P_trans with w1; [now apply (Hm _ _ _ E)|].
    now apply (Hk a _ _ _ H).
  - intros [= _ <-]. now apply (Hm _ _ _ E).
Qed.

Lemma keeps_each {A} (f : A -> M A) xs :
  (forall x, keeps P (f x)) -> keeps P (each xs f).
Proof.
  intros Hf. induction xs as [|x t IH]; simpl; [apply keeps_ret|].
  apply keeps_mbind; [apply Hf|]. intros a.
  apply keeps_mbind; [exact IH|]. intros b. apply keeps_ret.
Qed.

Lemma keeps_each_with {A S} (f : S -> A -> M S) xs :
  (forall s x, keeps P (f s x)) -> forall s, keeps P (each_with xs f s).
Proof.
  intros Hf. induction xs as [|x t IH]; intros s; simpl; [apply keeps_ret|].
  apply keeps_mbind; [apply Hf|]. intros a. apply IH.
Qed.

Hypothesis P_alloc : keeps P alloc.

Section Branches.
Variables (env : Env) (st : settings).
Hypothesis P_write : forall p data, keeps P (write_file p data).

Lemma keeps_resource_page name item res :
  keeps P (resource_page env st name item res).
Proof.
  unfold resource_page. apply keeps_mbind; [exact P_alloc|]. intros l.
  apply keeps_mbind; [apply keeps_lift|]. intros rendered.
  apply keeps_mbind; [apply keeps_lift|]. intros filePath.
  apply keeps_mbind; [apply P_write|]. intros _. apply keeps_ret.
Qed.

Lemma keeps_home_page item : keeps P (home_page env st item).
Proof.
  unfold home_page. destruct (homeTemplateFile st); [|apply keeps_ret].
  apply keeps_mbind; [apply keeps_lift|]. intros rendered.
  apply keeps_mbind; [apply keeps_lift|]. intros filePath. apply P_write.
Qed.

Lemma keeps_file_branches files :
  outputType st = File -> keeps P (dispatch env st files).
Proof.
  intros Htype. unfold dispatch. rewrite Htype.
  destruct (outputSplitting st).
  - apply keeps_mbind; [apply keeps_lift|]. intros rendered.
    apply keeps_mbind; [apply keeps_lift|]. intros p.
    apply keeps_mbind; [apply P_write|]. intros _. apply keeps_ret.
  - apply keeps_mbind; [|intros ?; apply keeps_ret].
    apply keeps_each. intros item. unfold one_per_resource.
    apply keeps_each_with. intros s res. apply keeps_resource_page.
  - apply keeps_mbind; [|intros ?; apply keeps_ret].
    apply keeps_each. intros item. unfold one_per_resource_versioning.
    apply keeps_mbind; [apply keeps_lift|]. intros item0.
    apply keeps_mbind; [apply keeps_home_page|]. intros _.
    unfold version_pages. apply keeps_each_with. intros s version.
    apply keeps_each_with. intros s' res. apply keeps_resource_page.
Qed.
End Branches.

End Frames.

Lemma write_file_same_stdout p data : keeps same_stdout (write_file p data).
Proof.
  intros w r w'. unfold write_file, same_stdout.
  destruct (if existsSync (w_fs w) p then Ok (w_fs w) else mkdirp (w_fs w) p)
    as [fs1|e]; [|now intros [= _ <-]].
  destruct (writeFileSync fs1 p data); now intros [= _ <-].
Qed.

Lemma dispatch_same_stdout env st files :
  outputType st <> StdOut -> keeps same_stdout (dispatch env st files).
Proof.
  intros Htype. destruct (outputType st) eqn:E; [|congruence|].
  - unfold dispatch. rewrite E.
    apply keeps_mbind; try easy; unfold same_stdout; try congruence.
    + now intros w r w' [= _ <-].
    + intros a w r w' [= _ <-]. reflexivity.
  - apply keeps_file_branches; try easy.
    + unfold same_stdout. congruence.
    + now intros w r w' [= _ <-].
    + intros. apply write_file_same_stdout.
Qed.

Lemma dispatch_same_fs env st files :
  outputType st <> File -> keeps same_fs (dispatch env st files).
Proof.
  intros Htype. unfold dispatch.
  assert (Htrans : forall w1 w2 w3 : world,
             same_fs w1 w2 -> same_fs w2 w3 -> same_fs w1 w3)
    by (unfold same_fs; congruence).
  assert (Hlift : forall A (x : result A), keeps same_fs (lift x))
    by (now intros A x w r w' [= _ <-]).
  assert (Hret : forall A (x : A), keeps same_fs (ret x))
    by (now intros A x w r w' [= _ <-]).
  destruct (outputType st); [| |congruence].
  - apply keeps_mbind; auto.
  - apply keeps_mbind; auto. intros rendered.
    apply keeps_mbind; auto. now intros w r w' [= _ <-].
Qed.

(** X4: a call of render changes the file system only when the output type
    is File and prints only when it is StdOut, whether it resolves or
    rejects. *)
Theorem render_touches_only_its_output env u w :
  (output_type (extend (DefaultConfig env) u) <> File ->
   w_fs (snd (render env u w)) = w_fs w) /\
  (output_type (extend (DefaultConfig env) u) <> StdOut ->
   w_stdout (snd (render env u w)) = w_stdout w).
Proof.
  unfold render. destruct (parse env (w_fs w) u) as [files|e]; [|easy].
  destruct (dispatch env (settings_of env (extend (DefaultConfig env) u))
              files w) as [r w'] eqn:E.
  split; intros Htype.
  - apply dispatch_same_fs in E; [|exact Htype].
    now destruct r as [[? ?]|?].
  - apply dispatch_same_stdout in E; [|exact Htype].
    now destruct r as [[? ?]|?].
Qed.

Lemma render_touches_only_its_output_witness :
  w_fs (snd (render sample_env (with_paths ["api.raml"%string]) sample_world))
  = sample_fs /\
  w_stdout
    (snd (render sample_env (with_paths ["api.raml"%string]) sample_world))
  = [].
Proof.
  destruct (@render_touches_only_its_output sample_env
              (with_paths ["api.raml"%string]) sample_world) as [H1 H2].
  split; [apply H1|apply H2]; discriminate.
Defined.

Lemma dispatch_result env st files w files' result w' :
  dispatch env st files w = (Ok (files', result), w') ->
  (result <> None <-> outputType st = ReturnOnly).
Proof.
  unfold dispatch. destruct (outputType st).
  - intros H. apply mbind_Ok in H as (? & ? & _ & H).
    injection H as _ <- _. split; easy.
  - intros H. apply mbind_Ok in H as (? & ? & _ & H).
    apply mbind_Ok in H as (? & ? & _ & H). injection H as _ <- _.
    split; easy.
  - intros H. assert (result = None); [|subst; split; easy].
    destruct (outputSplitting st).
    + apply mbind_Ok in H as (? & ? & _ & H).
      apply mbind_Ok in H as (? & ? & _ & H).
      apply mbind_Ok in H as (? & ? & _ & H). now injection H.
    + apply mbind_Ok in H as (? & ? & _ & H). now injection H.
    + apply mbind_Ok in H as (? & ? & _ & H). now injection H.
Qed.

(** X5: when render resolves, it resolves to a text exactly when the
    output type is ReturnOnly; for File and StdOut it resolves to
    undefined. *)
Theorem render_resolves_to_text_only_for_ReturnOnly env u w result w' :
  render env u w = (Ok result, w') ->
  (result <> None <->
   output_type (extend (DefaultConfig env) u) = ReturnOnly).
Proof.
  unfold render. destruct (parse env (w_fs w) u) as [files|e]; [|easy].
  destruct (dispatch env (settings_of env (extend (DefaultConfig env) u))
              files w) as [[[files' r]|e] w1] eqn:E; [|easy].
  intros [= -> ->]. exact (dispatch_result _ _ _ _ E).
Qed.

Lemma render_resolves_to_text_only_for_ReturnOnly_witness :
  output_type (extend (DefaultConfig sample_env) versioning_config)
  <> ReturnOnly /\
  fst (render sample_env versioning_config sample_world) = Ok None.
Proof.
  split; [discriminate|].
  destruct (render sample_env versioning_config sample_world)
    as [[[text|]|e] w'] eqn:E; [| reflexivity | now vm_compute in E].
  exfalso.
  assert (H : output_type
                (extend (DefaultConfig sample_env) versioning_config)
              = ReturnOnly)
    by (apply (@render_resolves_to_text_only_for_ReturnOnly
                 sample_env versioning_config sample_world (Some text) w' E);
        discriminate).
  discriminate H.
Defined.

Lemma parse_with_type env root u t :
  parse env root (with_type u t) = parse env root u.
Proof. reflexivity. Qed.

Lemma render_item_with_type env u t item :
  render_item env
    (settings_of env (extend (DefaultConfig env) (with_type u t))) item
  = render_item env (settings_of env (extend (DefaultConfig env) u)) item.
Proof. reflexivity. Qed.

(** X6: with output type StdOut render prints, once, exactly the text it
    would resolve to with ReturnOnly, resolves to undefined and leaves the
    file system alone; when the ReturnOnly call rejects, the StdOut call
    rejects with the same error and prints nothing. *)
Theorem stdout_prints_what_ReturnOnly_returns env u w :
  (forall text w',
     render env (with_type u ReturnOnly) w = (Ok (Some text), w') ->
     render env (with_type u StdOut) w =
     (Ok None, World (w_fs w) (w_stdout w ++ [text]) (w_next w))) /\
  (forall e w',
     render env (with_type u ReturnOnly) w = (Throw e, w') ->
     render env (with_type u StdOut) w = (Throw e, w)).
Proof.
  unfold render. rewrite !parse_with_type.
  destruct (parse env (w_fs w) u) as [files|e0].
  2:{ split; [discriminate|]. now intros e w' [= -> _]. }
  unfold dispatch.
  change (outputType (settings_of env
            (extend (DefaultConfig env) (with_type u ReturnOnly))))
    with ReturnOnly.
  change (outputType (settings_of env
            (extend (DefaultConfig env) (with_type u StdOut))))
    with StdOut.
  unfold mbind, lift, ret, stdout_write.
  rewrite (mapM_ext _ _ files (render_item_with_type env u ReturnOnly)).
  rewrite (mapM_ext _ _ files (render_item_with_type env u StdOut)).
  destruct (mapM _ files) as [rendered|e0].
  - split; [|discriminate]. now intros text w' [= <- _].
  - split; [discriminate|]. now intros e w' [= <- _].
Qed.

Lemma stdout_prints_what_ReturnOnly_returns_witness :
  exists text,
    text <> [] /\
    render sample_env (with_type (with_paths ["api.raml"%string]) StdOut)
      sample_world
    = (Ok None, World sample_fs [text] 10).
Proof.
  destruct (render sample_env
              (with_type (with_paths ["api.raml"%string]) ReturnOnly)
              sample_world) as [[[text|]|e] w'] eqn:E;
    try (now vm_compute in E).
  exists text. split.
  - intros ->. now vm_compute in E.
  - exact (proj1 (@stdout_prints_what_ReturnOnly_returns sample_env
                    (with_paths ["api.raml"%string]) sample_world)
             text w' E).
Defined.

Lemma mapM_In_Throw {A B} (f : A -> result B) xs x e0 :
  In x xs -> f x = Throw e0 -> exists e, mapM f xs = Throw e.
Proof.
  induction xs as [|y t IH]; [easy|]. intros [->|Hin] Hx; simpl.
  - rewrite Hx. now exists e0.
  - destruct (f y) as [b|e]; [|now exists e]. simpl.
    destruct (IH Hin Hx) as [e He]. rewrite He. now exists e.
Qed.

(** X7: the branches that render whole documents (ReturnOnly, StdOut and
    File with AllInOne) render every document before they produce any
    output: when the template engine fails on one of the parsed documents,
    render rejects with the error of a failing document and nothing is
    written or printed. *)
Theorem template_failure_rejects_before_any_output env u w files item e0 :
  parse env (w_fs w) u = Ok files ->
  In item files ->
  nunjucks_render env
    (path_resolve env (input_templateFile (extend (DefaultConfig env) u)))
    item = Throw e0 ->
  (output_type (extend (DefaultConfig env) u) = File ->
   output_file_splitting (extend (DefaultConfig env) u) = AllInOne) ->
  exists e item',
    In item' files /\
    nunjucks_render env
      (path_resolve env (input_templateFile (extend (DefaultConfig env) u)))
      item' = Throw e /\
    render env u w = (Throw e, w).
Proof.
  intros Hparse Hin Hfail Hsplit. unfold render. rewrite Hparse.
  set (st := settings_of env (extend (DefaultConfig env) u)).
  assert (Hitem : render_item env st item = Throw e0)
    by (unfold render_item; fold st in Hfail |- *;
        change (templateFile st)
          with (path_resolve env
                  (input_templateFile (extend (DefaultConfig env) u)));
        now rewrite Hfail).
  assert (He : exists e, mapM (render_item env st) files = Throw e)
    by (eapply mapM_In_Throw; eassumption).
  destruct He as [e He].
  destruct (mapM_Throw _ _ He) as (item' & Hin' & Hitem').
  exists e, item'. split; [exact Hin'|]. split.
  - unfold render_item in Hitem'.
    change (templateFile st)
      with (path_resolve env
              (input_templateFile (extend (DefaultConfig env) u)))
      in Hitem'.
    destruct (nunjucks_render env _ item'); [discriminate|].
    simpl in Hitem'. congruence.
  - unfold dispatch.
    change (outputType st)
      with (output_type (extend (DefaultConfig env) u)) in *.
    change (outputSplitting st)
      with (output_file_splitting (extend (DefaultConfig env) u)) in *.
    destruct (output_type (extend (DefaultConfig env) u)).
    + unfold mbind, lift. now rewrite He.
    + unfold mbind, lift. now rewrite He.
    + rewrite (Hsplit eq_refl). unfold mbind, lift. now rewrite He.
Qed.

Lemma template_failure_rejects_before_any_output_witness :
  render broken_template_env
    (to_files ["api.raml"%string] AllInOne "all.md" None) sample_world
  = (Throw TemplateError, sample_world).
Proof.
  destruct (@template_failure_rejects_before_any_output broken_template_env
              (to_files ["api.raml"%string] AllInOne "all.md" None)
              sample_world _ _ TemplateError eq_refl (or_introl eq_refl)
              eq_refl (fun _ => eq_refl))
    as (e & item' & _ & He & Hr).
  injection He as <-. exact Hr.
Defined.

(** ** Edge cases of the configuration *)

(** X8: without input paths (the default) parse resolves to no document;
    render then resolves to the empty text for ReturnOnly, prints one
    empty text for StdOut, and in the per-resource File branches resolves
    without writing any file. *)
Theorem render_without_input env u w :
  input_paths (extend (DefaultConfig env) u) = [] ->
  parse env (w_fs w) u = Ok [] /\
  (output_type (extend (DefaultConfig env) u) = ReturnOnly ->
   render env u w = (Ok (Some []), w)) /\
  (output_type (extend (DefaultConfig env) u) = StdOut ->
   render env u w =
   (Ok None, World (w_fs w) (w_stdout w ++ [[]]) (w_next w))) /\
  (output_type (extend (DefaultConfig env) u) = File ->
   output_file_splitting (extend (DefaultConfig env) u) <> AllInOne ->
   render env u w = (Ok None, w)).
Proof.
  intros Hpaths.
  assert (Hparse : forall root, parse env root u = Ok []).
  { intros root. unfold parse, parse_load. rewrite Hpaths. simpl.
    unfold parse_then, relax. simpl.
    now destruct (or_default (u_input_contentFilter u) None). }
  split; [apply Hparse|].
  unfold render. rewrite Hparse. unfold dispatch.
  change (outputType (settings_of env (extend (DefaultConfig env) u)))
    with (output_type (extend (DefaultConfig env) u)).
  change (outputSplitting (settings_of env (extend (DefaultConfig env) u)))
    with (output_file_splitting (extend (DefaultConfig env) u)).
  repeat split; intros ->; try reflexivity.
  intros Hsplit.
  now destruct (output_file_splitting (extend (DefaultConfig env) u)).
Qed.

Lemma render_without_input_witness :
  parse sample_env sample_fs no_config = Ok [] /\
  render sample_env no_config sample_world = (Ok (Some []), sample_world).
Proof.
  destruct (@render_without_input sample_env no_config sample_world eq_refl)
    as (Hparse & Hret & _).
  split; [exact Hparse|exact (Hret eq_refl)].
Defined.

Lemma one_per_resource_without_path env st item w :
  outputPath st = None ->
  (forall n e, nunjucks_render env (templateFile st) n <> Throw e) ->
  (resources_list item = [] /\
   one_per_resource env st item w = (Ok item, w)) \/
  (resources_list item <> [] /\
   one_per_resource env st item w
   = (Throw TypeError, World (w_fs w) (w_stdout w) (S (w_next w)))).
Proof.
  intros Hpath Hrender. unfold one_per_resource.
  destruct (resources_list item) as [|res rest]; [now left|right].
  split; [easy|]. simpl. unfold mbind at 1.
  unfold resource_page, mbind, alloc, lift, output_file. simpl.
  destruct (nunjucks_render env (templateFile st) _) as [r|e] eqn:E;
    [|now apply Hrender in E].
  now rewrite Hpath.
Qed.

(** X9: with File output split per resource and no output path (null is
    the default), joining the path of the first page throws: as soon as
    one parsed document has a resource, render rejects with a TypeError
    and the file system is as it was. *)
Theorem per_resource_without_output_path env u w files item :
  parse env (w_fs w) u = Ok files ->
  output_type (extend (DefaultConfig env) u) = File ->
  output_file_splitting (extend (DefaultConfig env) u) = OnePerResource ->
  output_file_path (extend (DefaultConfig env) u) = None ->
  (forall n e,
     nunjucks_render env
       (path_resolve env (input_templateFile (extend (DefaultConfig env) u)))
       n <> Throw e) ->
  In item files -> resources_list item <> [] ->
  exists w',
    render env u w = (Throw TypeError, w') /\ w_fs w' = w_fs w /\
    w_stdout w' = w_stdout w.
Proof.
  intros Hparse Htype Hsplit Hpath Hrender Hin Hres.
  unfold render. rewrite Hparse.
  set (st := settings_of env (extend (DefaultConfig env) u)).
  assert (Hpath' : outputPath st = None)
    by (change (outputPath st)
          with (match output_file_path (extend (DefaultConfig env) u) with
                | Some p => Some (path_resolve env p)
                | None => None
                end); now rewrite Hpath).
  unfold dispatch.
  change (outputType st) with (output_type (extend (DefaultConfig env) u)).
  change (outputSplitting st)
    with (output_file_splitting (extend (DefaultConfig env) u)).
  rewrite Htype, Hsplit. clear Hparse.
  enough (H : exists w',
             each files (one_per_resource env st) w = (Throw TypeError, w') /\
             w_fs w' = w_fs w /\ w_stdout w' = w_stdout w).
  { destruct H as (w' & H & Hfs). exists w'. split; [|exact Hfs].
    unfold mbind. now rewrite H. }
  induction files as [|d t IH]; [easy|]. simpl.
  destruct (@one_per_resource_without_path env st d w Hpath' Hrender)
    as [[Hnil H]|[_ H]].
  - destruct Hin as [->|Hin]; [congruence|].
    destruct (IH Hin) as (w' & Ht & Hfs). exists w'. split; [|exact Hfs].
    unfold mbind at 1. rewrite H. unfold mbind at 1. now rewrite Ht.
  - eexists. split; [unfold mbind at 1; rewrite H; reflexivity|easy].
Qed.

Lemma per_resource_without_output_path_witness :
  exists w',
    render sample_env
      (with_type
         {| u_paths := Some [lit "api.raml"]; u_recursive := None;
            u_fileFilter := None; u_templateFile := None;
            u_homeTemplateFile := None; u_input_contentFilter := None;
            u_type := None; u_splitting := Some OnePerResource;
            u_path := None; u_extension := None;
            u_output_contentFilter := None |} File)
      sample_world
    = (Throw TypeError, w') /\
    w_fs w' = sample_fs /\ w_stdout w' = [].
Proof.
  eapply (@per_resource_without_output_path sample_env _ sample_world).
  - reflexivity.
  - reflexivity.
  - reflexivity.
  - reflexivity.
  - discriminate.
  - left. reflexivity.
  - discriminate.
Defined.

(** ** The files the per-resource branches write *)

Lemma write_all_app fs a b :
  write_all fs (a ++ b) = (fs1 <- write_all fs a ;; write_all fs1 b).
Proof.
  revert fs. induction a as [|[p d] t IH]; intros fs; simpl; [easy|].
  destruct (ensure_and_write fs p d); simpl; [apply IH|easy].
Qed.

Lemma writes_as_ret {A} (a : A) w : writes_as (ret a) w [] 0 (eq a).
Proof.
  unfold writes_as, ret. simpl. exists a. rewrite Nat.add_0_r.
  now destruct w.
Qed.

Lemma writes_as_impl {A} (m : M A) w files n (Q Q' : A -> Prop) :
  (forall a, Q a -> Q' a) -> writes_as m w files n Q ->
  writes_as m w files n Q'.
Proof.
  unfold writes_as. intros HQ. destruct (write_all (w_fs w) files); [|easy].
  intros (x & H & Hx). exists x. auto.
Qed.

Lemma writes_as_bind {A B} (m : M A) (k : A -> M B) w fa fb na nb
  (Qa : A -> Prop) (Qb : B -> Prop) :
  writes_as m w fa na Qa ->
  (forall a fs', Qa a ->
     writes_as (k a) (World fs' (w_stdout w) (w_next w + na)) fb nb Qb) ->
  writes_as (mbind m k) w (fa ++ fb) (na + nb) Qb.
Proof.
  unfold writes_as. rewrite write_all_app. intros Hm Hk.
  destruct (write_all (w_fs w) fa) as [fs1|e]; simpl.
  - destruct Hm as (x & Hm & Hx). specialize (Hk x fs1 Hx). simpl in Hk.
    unfold mbind. rewrite Hm.
    destruct (write_all fs1 fb) as [fs2|e]; [|exact Hk].
    destruct Hk as (y & Hk & Hy). exists y. split; [|exact Hy].
    now rewrite Hk, Nat.add_assoc.
  - unfold mbind.
    destruct (m w) as [[x|e'] w']; simpl in *; [discriminate|congruence].
Qed.

Section PageFiles.
Variables (env : Env) (st : settings) (R : path -> node -> jsstring).
Hypothesis Hrender : forall t n, nunjucks_render env t n = Ok (R t n).
Variable out : path.
Hypothesis Hout : outputPath st = Some out.

Lemma page_files_same item item' l pages :
  (forall x, set_resources item' x = set_resources item x) ->
  page_files env st R out item' l pages = page_files env st R out item l pages.
Proof.
  intros H. revert l.
  induction pages as [|[name res] t IH]; intros l; simpl; [easy|].
  now rewrite H, IH.
Qed.

Lemma page_files_app item l a b :
  page_files env st R out item l (a ++ b) =
  page_files env st R out item l a ++
  page_files env st R out item (l + List.length a) b.
Proof.
  revert l. induction a as [|[name res] t IH]; intros l; simpl.
  - now rewrite Nat.add_0_r.
  - now rewrite IH, Nat.add_succ_r.
Qed.

Lemma resource_page_writes name item res w :
  writes_as (resource_page env st name item res) w
    (page_files env st R out item (w_next w) [(name, res)]) 1
    (fun item' => forall x, set_resources item' x = set_resources item x).
Proof.
  unfold writes_as. simpl.
  destruct (ensure_and_write (w_fs w) (path_join env out name) _)
    as [fs'|e] eqn:E; simpl.
  - exists (set_resources item (Some (w_next w, [res]))).
    split; [|intros x; reflexivity].
    rewrite (@resource_page_Ok env st R Hrender out Hout _ _ _ _ _ E).
    now rewrite Nat.add_1_r.
  - unfold resource_page, mbind, alloc, lift, output_file.
    rewrite Hrender, Hout.
    match goal with
    | |- fst (match write_file ?p ?d ?w1 with _ => _ end) = _ =>
      pose proof (@write_file_Throw w1 p d e E) as H;
        destruct (write_file p d w1) as [[[]|e'] w2]
    end; simpl in *; [discriminate H|congruence].
Qed.

Lemma page_loop_writes (name : node -> jsstring) rs :
  forall item w,
    writes_as
      (each_with rs (fun item res => resource_page env st (name res) item res)
         item)
      w
      (page_files env st R out item (w_next w)
         (map (fun res => (name res, res)) rs))
      (List.length rs)
      (fun item' => forall x, set_resources item' x = set_resources item x).
Proof.
  induction rs as [|res rest IH]; intros item w.
  - simpl. apply writes_as_impl with (Q := eq item); [now intros ? <-|].
    apply writes_as_ret.
  - change (each_with (res :: rest)
              (fun item res => resource_page env st (name res) item res) item)
      with (mbind (resource_page env st (name res) item res)
              (fun s' => each_with rest
                 (fun item res => resource_page env st (name res) item res)
                 s')).
    change (page_files env st R out item (w_next w)
              (map (fun res => (name res, res)) (res :: rest)))
      with (page_files env st R out item (w_next w) [(name res, res)] ++
            page_files env st R out item (S (w_next w))
              (map (fun res => (name res, res)) rest)).
    change (List.length (res :: rest)) with (1 + List.length rest).
    eapply writes_as_bind; [apply resource_page_writes|].
    intros item1 fs1 H1. cbv beta in H1.
    pose proof (IH item1 (World fs1 (w_stdout w) (w_next w + 1))) as IH1.
    cbn [w_next] in IH1. rewrite Nat.add_1_r in IH1 |- *.
    rewrite (page_files_same _ _ H1) in IH1.
    eapply writes_as_impl; [|exact IH1].
    intros a Ha x. cbv beta in Ha. now rewrite Ha, H1.
Qed.

Lemma version_loop_writes (name : node -> node -> jsstring) versions :
  forall item w,
    writes_as
      (each_with versions
         (fun item version =>
            each_with (resources_list version)
              (fun item res =>
                 resource_page env st (name version res) item res)
              item)
         item)
      w
      (page_files env st R out item (w_next w)
         (flat_map
            (fun version =>
               map (fun res => (name version res, res))
                 (resources_list version))
            versions))
      (List.length
         (flat_map
            (fun version =>
               map (fun res => (name version res, res))
                 (resources_list version))
            versions))
      (fun item' => forall x, set_resources item' x = set_resources item x).
Proof.
  induction versions as [|v rest IH]; intros item w.
  - simpl. apply writes_as_impl with (Q := eq item); [now intros ? <-|].
    apply writes_as_ret.
  - simpl flat_map. rewrite page_files_app, length_app.
    simpl each_with.
    eapply writes_as_bind.
    + rewrite length_map. apply page_loop_writes.
    + intros item1 fs1 H1. cbv beta in H1.
      pose proof (IH item1
                    (World fs1 (w_stdout w)
                       (w_next w + List.length (resources_list v)))) as IH1.
      cbn [w_next] in IH1. rewrite length_map.
      rewrite (page_files_same _ _ H1) in IH1.
      eapply writes_as_impl; [|exact IH1].
      intros a Ha x. cbv beta in Ha. now rewrite Ha, H1.
Qed.

Lemma home_page_writes item w :
  writes_as (home_page env st item) w
    (home_file env st R out OnePerResourceVersioning item) 0
    (fun _ => True).
Proof.
  unfold writes_as, home_file, home_page.
  destruct (homeTemplateFile st) as [home|]; simpl.
  - unfold mbind, lift, output_file. rewrite Hrender, Hout.
    destruct (ensure_and_write (w_fs w) _ _) as [fs'|e] eqn:E; simpl.
    + exists tt. rewrite (write_file_Ok _ _ _ E).
      now rewrite Nat.add_0_r.
    + exact (write_file_Throw _ _ _ E).
  - exists tt. rewrite Nat.add_0_r. now destruct w.
Qed.

Lemma one_per_resource_writes item w :
  writes_as (one_per_resource env st item) w
    (home_file env st R out OnePerResource item ++
     page_files env st R out item (w_next w)
       (page_names st OnePerResource item))
    (List.length (page_names st OnePerResource item))
    (fun _ => True).
Proof.
  unfold one_per_resource, home_file, page_names. simpl app.
  eapply writes_as_impl; [|rewrite length_map; apply page_loop_writes].
  easy.
Qed.

Lemma one_per_resource_versioning_writes item item0 w :
  sort_versions env item = Ok item0 ->
  writes_as (one_per_resource_versioning env st item) w
    (home_file env st R out OnePerResourceVersioning item0 ++
     page_files env st R out item0 (w_next w)
       (page_names st OnePerResourceVersioning item0))
    (List.length (page_names st OnePerResourceVersioning item0))
    (fun _ => True).
Proof.
  intros Hsort. unfold one_per_resource_versioning.
  assert (Hlift : forall k : node -> M node,
             mbind (lift (sort_versions env item)) k w = k item0 w)
    by (intros k; unfold mbind, lift; now rewrite Hsort).
  unfold writes_as. rewrite Hlift.
  change (writes_as
            (mbind (home_page env st item0)
               (fun _ => version_pages env st item0)) w
            (home_file env st R out OnePerResourceVersioning item0 ++
             page_files env st R out item0 (w_next w)
               (page_names st OnePerResourceVersioning item0))
            (0 + List.length (page_names st OnePerResourceVersioning item0))
            (fun _ => True)).
  eapply writes_as_bind; [apply home_page_writes|].
  intros [] fs1 _.
  pose proof (version_loop_writes
                (fun version res =>
                   to_string (displayName res) ++ lit "_" ++
                   to_string (uniqueId version) ++ outputExt st)
                (resources_list item0) item0
                (World fs1 (w_stdout w) (w_next w + 0))) as H.
  cbn [w_next] in H. unfold version_pages, page_names.
  replace (page_files env st R out item0 (w_next w))
    with (page_files env st R out item0 (w_next w + 0))
    by (now rewrite Nat.add_0_r).
  eapply writes_as_impl; [|exact H]. easy.
Qed.

Lemma branch_writes splitting (f : node -> M node) docs0 :
  (forall item item0 w,
     before_pages env splitting item = Ok item0 ->
     writes_as (f item) w
       (home_file env st R out splitting item0 ++
        page_files env st R out item0 (w_next w)
          (page_names st splitting item0))
       (List.length (page_names st splitting item0))
       (fun _ => True)) ->
  forall docs w,
    Forall2 (fun item item0 => before_pages env splitting item = Ok item0)
      docs docs0 ->
    writes_as (each docs f) w
      (branch_files env st R out splitting (w_next w) docs0)
      (List.length (flat_map (page_names st splitting) docs0))
      (fun _ => True).
Proof.
  intros Hf docs w H. revert w.
  induction H as [|item item0 docs docs0 Hitem _ IH]; intros w.
  - simpl. eapply writes_as_impl; [|apply writes_as_ret]. easy.
  - simpl each. simpl branch_files. simpl flat_map.
    rewrite length_app, app_assoc.
    eapply writes_as_bind; [apply (Hf _ _ _ Hitem)|].
    intros item1 fs1 _.
    rewrite <- (app_nil_r (branch_files _ _ _ _ _ _ docs0)), <- (Nat.add_0_r (List.length (flat_map _ docs0))).
    eapply writes_as_bind; [apply IH|].
    intros t' fs2 _. eapply writes_as_impl; [|apply writes_as_ret]. easy.
Qed.
End PageFiles.

Lemma writes_as_result (m : M (list node)) w files n :
  writes_as m w files n (fun _ => True) ->
  (forall fs',
     write_all (w_fs w) files = Ok fs' ->
     match mbind m (fun files' => ret (files', @None jsstring)) w with
     | (Ok (_, result), w') => (Ok result, w')
     | (Throw e, w') => (Throw e, w')
     end = (Ok None, World fs' (w_stdout w) (w_next w + n))) /\
  (forall e,
     write_all (w_fs w) files = Throw e ->
     fst match mbind m (fun files' => ret (files', @None jsstring)) w with
         | (Ok (_, result), w') => (Ok result, w')
         | (Throw e, w') => (Throw e, w')
         end = Throw e).
Proof.
  unfold writes_as, mbind, ret.
  destruct (write_all (w_fs w) files) as [fs1|e1].
  - intros (a & Hw & _). rewrite Hw. split; [|discriminate].
    now intros fs' [= <-].
  - intros Hw. split; [discriminate|]. intros e [= <-].
    destruct (m w) as [[a|e'] w']; simpl in *; congruence.
Qed.

Lemma render_per_resource_writes env u st R out w files docs0 :
  settings_of env (extend (DefaultConfig env) u) = st ->
  parse env (w_fs w) u = Ok files ->
  (forall t n, nunjucks_render env t n = Ok (R t n)) ->
  outputType st = File ->
  outputSplitting st <> AllInOne ->
  outputPath st = Some out ->
  Forall2 (fun item item0 => before_pages env (outputSplitting st) item = Ok item0)
    files docs0 ->
  (forall fs',
     write_all (w_fs w)
       (branch_files env st R out (outputSplitting st) (w_next w) docs0)
     = Ok fs' ->
     render env u w =
     (Ok None,
      World fs' (w_stdout w)
        (w_next w +
         List.length (flat_map (page_names st (outputSplitting st)) docs0)))) /\
  (forall e,
     write_all (w_fs w)
       (branch_files env st R out (outputSplitting st) (w_next w) docs0)
     = Throw e ->
     fst (render env u w) = Throw e).
Proof.
  intros Hst Hparse Hrender Htype Hsplit Hout.
  unfold render. rewrite Hparse, Hst. unfold dispatch. rewrite Htype.
  destruct (outputSplitting st) eqn:E; [congruence| |]; intros Hdocs;
    apply writes_as_result.
  - apply (@branch_writes env st R out OnePerResource); [|exact Hdocs].
    intros item item0 w0 [= <-].
    now apply one_per_resource_writes.
  - apply (@branch_writes env st R out OnePerResourceVersioning);
      [|exact Hdocs].
    intros item item0 w0 Hsort.
    now apply one_per_resource_versioning_writes.
Qed.

Lemma length_flat_map_map {A B C} (g : A -> B -> C) (h : A -> list B) vs :
  List.length (flat_map (fun v => map (g v) (h v)) vs)
  = List.length (flat_map h vs).
Proof.
  induction vs as [|v t IH]; simpl; [easy|].
  now rewrite !length_app, length_map, IH.
Qed.

Lemma Forall2_impl_In {A B} (P Q : A -> B -> Prop) xs ys :
  (forall x y, In x xs -> P x y -> Q x y) ->
  Forall2 P xs ys -> Forall2 Q xs ys.
Proof.
  intros H HP. induction HP as [|x y xs ys Hxy _ IH]; constructor.
  - apply H; [now left|exact Hxy].
  - apply IH. intros a b Ha. apply H. now right.
Qed.

Lemma Forall2_same {A} (P : A -> A -> Prop) xs :
  (forall x, P x x) -> Forall2 P xs xs.
Proof. intros H. induction xs; constructor; auto. Qed.

(** X10: with File output split OnePerResource, and a template engine that
    does not fail, render does to the file system exactly what writing one
    page per top-level resource does, document after document and resource
    after resource: the page of a resource is the file named after its
    displayName with the extension appended, holding the filtered text of
    the document rendered with resources reduced to that resource.  Render
    resolves to undefined when these writes succeed and rejects with the
    error of the first write that fails. *)
Theorem one_per_resource_writes_a_page_per_resource env u st R out w files :
  settings_of env (extend (DefaultConfig env) u) = st ->
  parse env (w_fs w) u = Ok files ->
  (forall t n, nunjucks_render env t n = Ok (R t n)) ->
  outputType st = File ->
  outputSplitting st = OnePerResource ->
  outputPath st = Some out ->
  (forall fs',
     write_all (w_fs w)
       (branch_files env st R out OnePerResource (w_next w) files) = Ok fs' ->
     render env u w =
     (Ok None,
      World fs' (w_stdout w)
        (w_next w + List.length (flat_map resources_list files)))) /\
  (forall e,
     write_all (w_fs w)
       (branch_files env st R out OnePerResource (w_next w) files) = Throw e ->
     fst (render env u w) = Throw e).
Proof.
  intros Hst Hparse Hrender Htype Hsplit Hout.
  assert (Hlen : List.length (flat_map (page_names st OnePerResource) files)
                 = List.length (flat_map resources_list files)).
  { clear. induction files as [|d t IH]; simpl; [easy|].
    now rewrite !length_app, length_map, IH. }
  rewrite <- Hlen, <- Hsplit.
  apply (@render_per_resource_writes env u st R out w files files);
    try assumption.
  - rewrite Hsplit. discriminate.
  - rewrite Hsplit. now apply Forall2_same.
Qed.

Lemma one_per_resource_writes_a_page_per_resource_witness :
  exists fs',
    render sample_env per_resource_config sample_world
    = (Ok None, World fs' [] 11) /\
    map (existsSync fs') [[lit "out"; lit "/users.md"]; [lit "out"]]
    = [true; true].
Proof.
  destruct (@one_per_resource_writes_a_page_per_resource sample_env
              per_resource_config _ sample_text [lit "out"] sample_world _
              eq_refl eq_refl (fun _ _ => eq_refl) eq_refl eq_refl eq_refl)
    as [Hok _].
  eexists. split.
  - apply Hok. vm_compute. reflexivity.
  - vm_compute. reflexivity.
Defined.

Lemma sort_versions_document_sorted env item item0 :
  (forall v e, In v (resources_list item) -> In e (resources_list v) ->
               first_char e <> None) ->
  sort_versions env item = Ok item0 -> document_sorted item item0.
Proof.
  unfold sort_versions, resources_list, document_sorted.
  destruct (resources item) as [[l versions]|]; [|discriminate].
  intros Hne Hsort.
  destruct (sort_versions_sorted env versions Hne) as (versions' & Hmap & Hs).
  rewrite Hmap in Hsort. injection Hsort as <-.
  now exists l, versions, versions'.
Qed.

(** X11: with File output split OnePerResourceVersioning, for documents
    whose endpoints all have a non-empty displayName and a template engine
    that does not fail, every version group is sorted in place, and render
    does to the file system exactly what writing, document after document,
    the home page (only when a home template is configured, rendered from
    the whole sorted document) and then one page per endpoint does, group
    after group in the given order and endpoint after endpoint in sorted
    order: the page of an endpoint is named displayName, underscore,
    uniqueId of its group, extension. *)
Theorem versioning_writes_home_then_endpoint_pages
  env u st R out w files sorted :
  settings_of env (extend (DefaultConfig env) u) = st ->
  parse env (w_fs w) u = Ok files ->
  (forall t n, nunjucks_render env t n = Ok (R t n)) ->
  outputType st = File ->
  outputSplitting st = OnePerResourceVersioning ->
  outputPath st = Some out ->
  (forall item v e,
     In item files -> In v (resources_list item) ->
     In e (resources_list v) -> first_char e <> None) ->
  mapM (sort_versions env) files = Ok sorted ->
  Forall2 document_sorted files sorted /\
  (forall fs',
     write_all (w_fs w)
       (branch_files env st R out OnePerResourceVersioning (w_next w) sorted)
     = Ok fs' ->
     render env u w =
     (Ok None,
      World fs' (w_stdout w)
        (w_next w +
         List.length
           (flat_map (fun item => flat_map resources_list (resources_list item))
              sorted)))) /\
  (forall e,
     write_all (w_fs w)
       (branch_files env st R out OnePerResourceVersioning (w_next w) sorted)
     = Throw e ->
     fst (render env u w) = Throw e).
Proof.
  intros Hst Hparse Hrender Htype Hsplit Hout Hnames Hsort.
  split.
  { apply mapM_Ok in Hsort. eapply Forall2_impl_In; [|exact Hsort].
    intros item item0 Hitem Hitem0.
    apply sort_versions_document_sorted with env; [|exact Hitem0].
    intros v e. now apply Hnames. }
  assert (Hlen : List.length
                   (flat_map (page_names st OnePerResourceVersioning) sorted)
                 = List.length
                     (flat_map
                        (fun item =>
                           flat_map resources_list (resources_list item))
                        sorted)).
  { clear. induction sorted as [|d t IH]; simpl; [easy|].
    rewrite !length_app, IH. f_equal. apply length_flat_map_map. }
  rewrite <- Hlen, <- Hsplit.
  apply (@render_per_resource_writes env u st R out w files sorted);
    try assumption.
  - rewrite Hsplit. discriminate.
  - rewrite Hsplit. now apply mapM_Ok.
Qed.

Lemma versioning_writes_home_then_endpoint_pages_witness :
  exists fs',
    render sample_env versioning_config sample_world
    = (Ok None, World fs' [] 12) /\
    map (existsSync fs')
      [[lit "out"; lit "Home.md"]; [lit "out"; lit "accounts_v1.md"];
       [lit "out"; lit "users_v1.md"]; [lit "out"; lit "v1.md"]]
    = [true; true; true; false].
Proof.
  destruct (@versioning_writes_home_then_endpoint_pages sample_env
              versioning_config _ sample_text [lit "out"] sample_world
              [versioned_document]
              match mapM (sort_versions sample_env) [versioned_document] with
              | Ok sorted => sorted
              | Throw _ => []
              end
              eq_refl eq_refl (fun _ _ => eq_refl) eq_refl eq_refl eq_refl)
    as (_ & Hok & _).
  { intros item v e [<-|[]] [<-|[]] [<-|[<-|[]]]; discriminate. }
  { reflexivity. }
  eexists. split.
  - apply Hok. vm_compute. reflexivity.
  - vm_compute. reflexivity.
Defined.

Lemma writeFileSync_lookup data p :
  forall root root',
    writeFileSync root p data = Ok root' ->
    fs_lookup root' p = Some (FFile data).
Proof.
  induction p as [|name p IH]; intros root root'; [discriminate|].
  destruct root as [c|es]; [discriminate|].
  destruct p as [|n2 p].
  - simpl. destruct (entry_lookup name es) as [[c|es']|]; try discriminate;
      intros [= <-]; simpl; now rewrite entry_lookup_set.
  - rewrite writeFileSync_cons.
    destruct (entry_lookup name es) as [t|]; [|discriminate].
    destruct (writeFileSync t (n2 :: p) data) as [t'|e] eqn:E;
      [|discriminate].
    intros [= <-]. rewrite fs_lookup_cons, entry_lookup_set.
    now apply IH with t.
Qed.

Lemma write_all_last fs pre p data fs' :
  write_all fs (pre ++ [(p, data)]) = Ok fs' ->
  fs_lookup fs' p = Some (FFile data).
Proof.
  rewrite write_all_app. destruct (write_all fs pre) as [fs1|e];
    [|discriminate].
  simpl. unfold ensure_and_write.
  destruct (if existsSync fs1 p then Ok fs1 else mkdirp fs1 p) as [fs2|e];
    [|discriminate].
  simpl. destruct (writeFileSync fs2 p data) as [fs3|e] eqn:E;
    [|discriminate].
  intros [= <-]. exact (writeFileSync_lookup _ _ _ E).
Qed.

Lemma branch_files_app env st R out splitting a b :
  forall l,
    branch_files env st R out splitting l (a ++ b) =
    branch_files env st R out splitting l a ++
    branch_files env st R out splitting
      (l + List.length (flat_map (page_names st splitting) a)) b.
Proof.
  induction a as [|d t IH]; intros l; simpl.
  - now rewrite Nat.add_0_r.
  - rewrite IH, length_app, Nat.add_assoc. now rewrite <- !app_assoc.
Qed.

(** X12: with File output split OnePerResource nothing keeps the pages of
    two resources apart when their file names coincide.  When render
    resolves, the file named after the last resource of the last document
    holds the page of that resource, so the page an earlier resource of
    the same displayName was given is overwritten. *)
Theorem one_per_resource_last_page_wins
  env u st R out w docs item pre res result w' :
  settings_of env (extend (DefaultConfig env) u) = st ->
  parse env (w_fs w) u = Ok (docs ++ [item]) ->
  (forall t n, nunjucks_render env t n = Ok (R t n)) ->
  outputType st = File ->
  outputSplitting st = OnePerResource ->
  outputPath st = Some out ->
  resources_list item = pre ++ [res] ->
  render env u w = (Ok result, w') ->
  forall earlier,
    In earlier (pre ++ [res]) ->
    displayName earlier = displayName res ->
    fs_lookup (w_fs w')
      (path_join env out (to_string (displayName earlier) ++ outputExt st))
    = Some (FFile
              (filter_output (contentFilter st)
                 (R (templateFile st)
                    (set_resources item (Some (pred (w_next w'), [res])))))).
Proof.
  intros Hst Hparse Hrender Htype Hsplit Hout Hres Hrun earlier _ ->.
  assert (Hsplit' : outputSplitting st <> AllInOne)
    by (rewrite Hsplit; discriminate).
  assert (Hdocs : Forall2
                    (fun item item0 =>
                       before_pages env (outputSplitting st) item = Ok item0)
                    (docs ++ [item]) (docs ++ [item]))
    by (rewrite Hsplit; now apply Forall2_same).
  destruct (@render_per_resource_writes env u st R out w (docs ++ [item])
              (docs ++ [item]) Hst Hparse Hrender Htype Hsplit' Hout Hdocs)
    as [Hok Hthrow].
  rewrite Hsplit in Hok, Hthrow.
  destruct (write_all (w_fs w)
              (branch_files env st R out OnePerResource (w_next w)
                 (docs ++ [item]))) as [fs'|e] eqn:E.
  2:{ specialize (Hthrow e eq_refl). rewrite Hrun in Hthrow.
      discriminate. }
  rewrite (Hok fs' eq_refl) in Hrun. injection Hrun as _ <-.
  cbn [w_fs w_next].
  assert (Hn : pred (w_next w +
                     List.length
                       (flat_map (page_names st OnePerResource)
                          (docs ++ [item])))
               = w_next w +
                 List.length (flat_map (page_names st OnePerResource) docs) +
                 List.length
                   (map (fun res =>
                           (to_string (displayName res) ++ outputExt st, res))
                      pre)).
  { rewrite flat_map_app, length_app. cbn [flat_map]. rewrite app_nil_r.
    change (page_names st OnePerResource item)
      with (map (fun res => (to_string (displayName res) ++ outputExt st, res))
              (resources_list item)).
    rewrite Hres, !length_map, length_app. simpl. lia. }
  rewrite Hn.
  rewrite branch_files_app in E. simpl branch_files in E.
  rewrite Hres, map_app, page_files_app in E.
  cbn [map page_files] in E. rewrite app_nil_r, !app_assoc in E.
  now apply write_all_last in E.
Qed.

Lemma one_per_resource_last_page_wins_witness :
  fs_lookup
    (w_fs (snd (render twice_named_env per_resource_config sample_world)))
    [lit "out"; lit "users.md"]
  = Some (FFile (lit "second")).
Proof.
  exact (@one_per_resource_last_page_wins twice_named_env per_resource_config
           _ (fun _ item => List.concat (map extra (resources_list item)))
           [lit "out"] sample_world [] twice_named_document [first_users]
           second_users None
           (snd (render twice_named_env per_resource_config sample_world))
           eq_refl eq_refl (fun _ _ => eq_refl) eq_refl eq_refl eq_refl
           eq_refl eq_refl first_users (or_introl eq_refl) eq_refl).
Defined.

(** ** Documents the versioning branch cannot sort *)

Lemma forallb_has_displayName es :
  forallb has_displayName es = false <->
  exists e, In e es /\ displayName e = None.
Proof.
  induction es as [|x t IH]; simpl.
  - split; [discriminate|now intros (e & [] & _)].
  - unfold has_displayName at 1.
    destruct (displayName x) as [d|] eqn:E; simpl.
    + rewrite IH. split.
      * intros (e & Hin & He). exists e. auto.
      * intros (e & [<-|Hin] & He); [congruence|]. exists e. auto.
    + split; [|easy]. intros _. exists x. auto.
Qed.

Lemma sort_version_Throw env v e :
  sort_version env v = Throw e <-> e = TypeError /\ unsortable v.
Proof.
  unfold sort_version, unsortable.
  destruct (resources v) as [[l [|e1 [|e2 es]]]|].
  - split; [discriminate|]. now intros (_ & ? & ? & ? & ? & ? & [= ] & _).
  - split; [discriminate|]. now intros (_ & ? & ? & ? & ? & ? & [= ] & _).
  - unfold sort_endpoints.
    destruct (forallb has_displayName (e1 :: e2 :: es)) eqn:E.
    + split; [discriminate|].
      intros (_ & l' & a & b & r & x & [= <- <- <- <-] & Hin & Hx).
      assert (forallb has_displayName (e1 :: e2 :: es) = false)
        by (apply forallb_has_displayName; now exists x).
      congruence.
    + apply forallb_has_displayName in E as (x & Hin & Hx). simpl. split.
      * intros [= <-]. split; [easy|]. now exists l, e1, e2, es, x.
      * now intros [-> _].
  - split; [discriminate|]. now intros (_ & ? & ? & ? & ? & ? & [= ] & _).
Qed.

Lemma sort_versions_Throw env item e :
  sort_versions env item = Throw e <->
  e = TypeError /\
  (resources item = None \/
   exists v, In v (resources_list item) /\ unsortable v).
Proof.
  unfold sort_versions, resources_list.
  destruct (resources item) as [[l versions]|].
  - destruct (mapM (sort_version env) versions) as [vs|e'] eqn:E; simpl.
    + split; [discriminate|]. intros (_ & [[= ]|(v & Hin & Hv)]).
      assert (H : sort_version env v = Throw TypeError)
        by now apply sort_version_Throw.
      assert (H' : exists e0, mapM (sort_version env) versions = Throw e0)
        by (eapply mapM_In_Throw; eassumption).
      destruct H' as [e0 H']. congruence.
    + apply mapM_Throw in E as (v & Hin & Hv).
      apply sort_version_Throw in Hv as [-> Hv]. split.
      * intros [= <-]. split; [easy|]. right. now exists v.
      * now intros [-> _].
  - split.
    + intros [= <-]. auto.
    + now intros [-> _].
Qed.

(** X13: the sorting loop of the versioning branch throws exactly when the
    document has no resources field, or one of its version groups has two
    endpoints or more of which one has no displayName; the error is a
    TypeError.  When this happens to the first document, render rejects
    with it before anything is written, the home page included. *)
Theorem versioning_rejects_unsortable_document env u w item rest :
  parse env (w_fs w) u = Ok (item :: rest) ->
  output_type (extend (DefaultConfig env) u) = File ->
  output_file_splitting (extend (DefaultConfig env) u)
  = OnePerResourceVersioning ->
  (forall e,
     sort_versions env item = Throw e <->
     e = TypeError /\
     (resources item = None \/
      exists v, In v (resources_list item) /\ unsortable v)) /\
  (resources item = None \/
   (exists v, In v (resources_list item) /\ unsortable v) ->
   render env u w = (Throw TypeError, w)).
Proof.
  intros Hparse Htype Hsplit. split; [intros e; apply sort_versions_Throw|].
  intros H.
  assert (Hsort : sort_versions env item = Throw TypeError)
    by now apply sort_versions_Throw.
  unfold render. rewrite Hparse. unfold dispatch.
  change (outputType (settings_of env (extend (DefaultConfig env) u)))
    with (output_type (extend (DefaultConfig env) u)).
  change (outputSplitting (settings_of env (extend (DefaultConfig env) u)))
    with (output_file_splitting (extend (DefaultConfig env) u)).
  rewrite Htype, Hsplit. simpl each.
  unfold one_per_resource_versioning at 1. unfold mbind, lift.
  now rewrite Hsort.
Qed.

Lemma versioning_rejects_unsortable_document_witness :
  sort_versions unsortable_env unsortable_document = Throw TypeError /\
  render unsortable_env versioning_config sample_world
  = (Throw TypeError, sample_world).
Proof.
  destruct (@versioning_rejects_unsortable_document unsortable_env
              versioning_config sample_world unsortable_document []
              eq_refl eq_refl eq_refl) as [Hiff Hrun].
  assert (H : resources unsortable_document = None \/
              exists v, In v (resources_list unsortable_document) /\
                        unsortable v).
  { right. eexists. split; [left; reflexivity|].
    exists 1, users_endpoint, unnamed_endpoint, [], unnamed_endpoint.
    repeat split. right. now left. }
  split; [apply Hiff; now split|now apply Hrun].
Defined.

(** ** What parse does to the parsed documents *)

Lemma parse_callback_reorders env n n1 :
  parse_callback env n = Ok n1 ->
  displayName n1 = displayName n /\ uniqueId n1 = uniqueId n /\
  extra n1 = extra n /\
  same_elements (properties n) (properties n1) /\
  same_items (items n) (items n1) /\
  resources n1 = resources n /\ methods n1 = methods n /\
  responses n1 = responses n /\ body n1 = body n.
Proof.
  unfold parse_callback.
  destruct n as [dn uid [props|] its rs ms rps bs ex]; simpl.
  - intros [= <-]; simpl. repeat split; try apply array_sort_perm.
    destruct its as [[[ps|]]|]; simpl; auto.
  - destruct its as [[[props|]]|]; simpl; try discriminate;
      intros [= <-]; simpl; repeat split; apply array_sort_perm.
Qed.

Lemma recursiveEach_node_reorders env n :
  forall n', recursiveEach_node deepKeys (parse_callback env) n = Ok n' ->
             reordered n n'.
Proof.
  induction n as [n IH] using node_children_ind.
  intros n' Hwalk. rewrite recursiveEach_node_deepKeys in Hwalk.
  apply bind_Ok in Hwalk as (n1 & Hcb & Hwalk).
  apply bind_Ok in Hwalk as (rs & Hrs & Hwalk).
  apply bind_Ok in Hwalk as (ms & Hms & Hwalk).
  apply bind_Ok in Hwalk as (rps & Hrps & Hwalk).
  apply bind_Ok in Hwalk as (bs & Hbs & Hwalk).
  injection Hwalk as <-.
  apply parse_callback_reorders in Hcb
    as (Hdn & Huid & Hex & Hps & Hits & Hrs1 & Hms1 & Hrps1 & Hbs1).
  assert (Hkids : forall k ys,
             mapM (recursiveEach_node deepKeys (parse_callback env))
               (children k n) = Ok ys ->
             Forall2 reordered (children k n) ys).
  { intros k ys H. apply mapM_Ok in H.
    eapply Forall2_impl_In; [|exact H].
    intros x y Hx Hxy. exact (IH k x Hx y Hxy). }
  apply (Hkids Kmethods) in Hms. apply (Hkids Kresponses) in Hrps.
  apply (Hkids Kbody) in Hbs.
  assert (Hres : Forall2 reordered (resources_list n)
                   match resources n with Some _ => rs | None => [] end).
  { unfold resources_list in *. pose proof (Hkids Kresources rs) as H.
    unfold children, resources_list in H.
    destruct (resources n) as [[l xs]|]; [now apply H|constructor]. }
  destruct n1 as [dn1 uid1 ps1 its1 rs1 ms1 rps1 bs1 ex1].
  simpl in Hdn, Huid, Hex, Hps, Hits, Hrs1, Hms1, Hrps1, Hbs1.
  subst dn1 uid1 ex1 rs1 ms1 rps1 bs1. clear Hrs Hkids IH.
  unfold resources_list in Hres.
  destruct (resources n) as [[l xs]|] eqn:Er;
    constructor; unfold resources_list; rewrite ?Er; simpl; auto.
Qed.

(** X14: parse changes nothing of the documents but the order of
    properties: every document it resolves to has the shape, the arrays
    and the fields of the document the parser returned (after the input
    content filter), and at every node its properties and items.properties
    collections hold the same elements as before.  The walk
    helper.recursiveEach is taken as the spec describes it. *)
Theorem parse_only_reorders_properties env root u docs :
  parse env root u = Ok docs ->
  exists items,
    parse_load env root (extend (DefaultConfig env) u) = Ok items /\
    Forall2 reordered
      (relax (input_contentFilter (extend (DefaultConfig env) u)) items) docs.
Proof.
  unfold parse. intros Hparse.
  apply bind_Ok in Hparse as (items & Hload & Hparse).
  exists items. split; [exact Hload|].
  unfold parse_then, recursiveEach in Hparse. apply mapM_Ok in Hparse.
  eapply Forall2_impl_In; [|exact Hparse].
  intros x y _ Hxy. now apply recursiveEach_node_reorders with env.
Qed.

Lemma parse_only_reorders_properties_witness :
  exists docs,
    parse sample_env sample_fs (with_paths ["api.raml"%string]) = Ok docs /\
    Forall2 reordered [sample_document] docs.
Proof.
  destruct (parse sample_env sample_fs (with_paths ["api.raml"%string]))
    as [docs|e] eqn:E; [|now vm_compute in E].
  exists docs. split; [reflexivity|].
  destruct (@parse_only_reorders_properties sample_env sample_fs _ docs E)
    as (items & Hload & H).
  vm_compute in Hload. injection Hload as <-. exact H.
Defined.

Lemma recursiveEach_node_Throw env n :
  forall e, recursiveEach_node deepKeys (parse_callback env) n = Throw e ->
  exists m, reachable n m /\ properties m = None /\ items m = None.
Proof.
  induction n as [n IH] using node_children_ind.
  intros e Hwalk. rewrite recursiveEach_node_deepKeys in Hwalk.
  assert (Hkids : forall k e0,
             mapM (recursiveEach_node deepKeys (parse_callback env))
               (children k n) = Throw e0 ->
             exists m, reachable n m /\ properties m = None /\
                       items m = None).
  { intros k e0 H. apply mapM_Throw in H as (c & Hc & H).
    destruct (IH k c Hc e0 H) as (m & Hm & Hnone).
    exists m. split; [now apply reach_child with k c|exact Hnone]. }
  destruct (parse_callback env n) as [n1|e1] eqn:Hcb.
  2:{ exists n. split; [constructor|].
      unfold parse_callback in Hcb.
      destruct (properties n); [discriminate|].
      destruct (items n) as [[[ps|]]|]; try discriminate. easy. }
  simpl in Hwalk.
  pose proof (Hkids Kresources) as Hr. unfold children, resources_list in Hr.
  destruct (match resources n with
            | Some (_, xs) =>
              mapM (recursiveEach_node deepKeys (parse_callback env)) xs
            | None => Ok []
            end) as [rs|e0] eqn:Hrs.
  2:{ destruct (resources n) as [[l xs]|]; [|discriminate].
      now apply Hr with e0. }
  simpl in Hwalk.
  destruct (mapM _ (methods n)) as [ms|e0] eqn:Hms;
    [|now apply (Hkids Kmethods e0)].
  simpl in Hwalk.
  destruct (mapM _ (responses n)) as [rps|e0] eqn:Hrps;
    [|now apply (Hkids Kresponses e0)].
  simpl in Hwalk.
  destruct (mapM _ (body n)) as [bs|e0] eqn:Hbs;
    [|now apply (Hkids Kbody e0)].
  discriminate.
Qed.

(** X15: once the files are listed and parsed, parse resolves exactly when
    every node reachable from a document through resources, methods,
    responses and body (the document included) has a properties field or an
    items field; otherwise it rejects with a TypeError.  The walk
    helper.recursiveEach is taken as the spec describes it. *)
Theorem parse_resolves_iff_every_node_has_a_lookup env root u parsed :
  parse_load env root (extend (DefaultConfig env) u) = Ok parsed ->
  ((exists docs, parse env root u = Ok docs) <->
   (forall d n,
      In d (relax (input_contentFilter (extend (DefaultConfig env) u)) parsed) ->
      reachable d n -> properties n <> None \/ items n <> None)) /\
  (forall e, parse env root u = Throw e -> e = TypeError).
Proof.
  intros Hload. unfold parse. rewrite Hload. simpl.
  unfold parse_then, recursiveEach.
  set (ds := relax (input_contentFilter (extend (DefaultConfig env) u)) parsed).
  split; [split|].
  - intros (docs & Hdocs) d n Hd Hreach.
    destruct (properties n) eqn:Hp; [left; discriminate|].
    destruct (items n) eqn:Hi; [right; discriminate|]. exfalso.
    apply mapM_Ok in Hdocs.
    destruct (Forall2_In_l Hdocs Hd) as (d' & _ & Hwalk).
    apply (@recursiveEach_node_visits env d n Hreach) with d'; [|exact Hwalk].
    unfold parse_callback. now rewrite Hp, Hi.
  - intros Hall.
    destruct (mapM (recursiveEach_node deepKeys (parse_callback env)) ds)
      as [docs|e] eqn:E; [now exists docs|].
    apply mapM_Throw in E as (d & Hd & Hwalk).
    apply recursiveEach_node_Throw in Hwalk as (m & Hm & Hp & Hi).
    destruct (Hall d m Hd Hm); contradiction.
  - intros e E. apply mapM_Throw in E as (d & Hd & Hwalk).
    now apply recursiveEach_node_only_TypeError in Hwalk.
Qed.

Lemma parse_resolves_iff_every_node_has_a_lookup_witness :
  (exists docs,
     parse sample_env sample_fs (with_paths ["api.raml"%string]) = Ok docs) /\
  parse sample_env sample_fs (with_paths ["bare.raml"%string])
  = Throw TypeError.
Proof.
  split.
  - exists (match parse sample_env sample_fs (with_paths ["api.raml"%string])
            with Ok docs => docs | Throw _ => [] end).
    reflexivity.
  - destruct (parse sample_env sample_fs (with_paths ["bare.raml"%string]))
      as [docs|e] eqn:E; [now vm_compute in E|].
    f_equal.
    exact (proj2 (@parse_resolves_iff_every_node_has_a_lookup sample_env
                    sample_fs (with_paths ["bare.raml"%string])
                    [[bare_document]] eq_refl) e E).
Defined.

(** X16: the default file filter accepts exactly the paths that end in one
    code unit other than a line terminator followed by the four letters
    raml; the letters are compared as they are, so an upper-case extension
    is not accepted. *)
Theorem default_file_filter_accepts_exactly env p :
  (default_file_predicate env p = true <->
   exists pre c, p = pre ++ c :: lit "raml" /\ line_terminator c = false) /\
  default_file_predicate env (lit "api.RAML") = false.
Proof.
  split; [|reflexivity].
  unfold default_file_predicate. simpl. apply default_fileFilter_accepts.
Qed.

(** X17: parse rejects for three reasons only: an input path that does not
    exist (the not-found failure of the file lister), a file among those
    listed for the input paths that the RAML parser rejects (with the
    parser's error), or a node reachable from a parsed document that has
    neither properties nor items (a TypeError).  The helpers listFiles,
    map and recursiveEach are taken as the spec describes them. *)
Theorem parse_rejects_for_three_reasons env root u e :
  parse env root u = Throw e ->
  (e = NotFoundError /\
   exists p, In p (input_paths (extend (DefaultConfig env) u)) /\
             existsSync root (path_resolve env p) = false) \/
  (exists listings files file,
     mapM (fun path =>
             listFiles env root path
               (input_recursive (extend (DefaultConfig env) u))
               (fileFilter_predicate
                  (input_fileFilter (extend (DefaultConfig env) u))))
       (input_paths (extend (DefaultConfig env) u)) = Ok listings /\
     In files listings /\ In file files /\
     raml2obj_parse env file = Throw e) \/
  (e = TypeError /\
   exists parsed d n,
     parse_load env root (extend (DefaultConfig env) u) = Ok parsed /\
     In d (relax (input_contentFilter (extend (DefaultConfig env) u)) parsed) /\
     reachable d n /\ properties n = None /\ items n = None).
Proof.
  unfold parse.
  destruct (parse_load env root (extend (DefaultConfig env) u))
    as [parsed|e0] eqn:Hload; simpl.
  - intros Hthen. right. right.
    unfold parse_then, recursiveEach in Hthen.
    apply mapM_Throw in Hthen as (d & Hd & Hwalk).
    split; [now apply recursiveEach_node_only_TypeError in Hwalk|].
    apply recursiveEach_node_Throw in Hwalk as (n & Hn & Hnone).
    now exists parsed, d, n.
  - intros [= <-]. unfold parse_load in Hload.
    destruct (mapM _ (input_paths (extend (DefaultConfig env) u)))
      as [listings|e1] eqn:Hlist; simpl in Hload.
    + right. left. apply mapM_Throw in Hload as (files & Hfiles & Hload).
      apply mapM_Throw in Hload as (file & Hfile & Hparse).
      now exists listings, files, file.
    + left. injection Hload as <-.
      apply mapM_Throw in Hlist as (p & Hp & Hlist).
      unfold listFiles in Hlist. unfold existsSync.
      destruct (fs_lookup root (path_resolve env p)) eqn:El; [discriminate|].
      injection Hlist as <-. split; [reflexivity|].
      exists p. now rewrite El.
Qed.

Lemma parse_rejects_for_three_reasons_witness :
  (TypeError = NotFoundError /\
   exists p,
     In p (input_paths
             (extend (DefaultConfig sample_env)
                (with_paths ["bare.raml"%string]))) /\
     existsSync sample_fs (path_resolve sample_env p) = false) \/
  (exists listings files file,
     mapM (fun path =>
             listFiles sample_env sample_fs path
               (input_recursive
                  (extend (DefaultConfig sample_env)
                     (with_paths ["bare.raml"%string])))
               (fileFilter_predicate
                  (input_fileFilter
                     (extend (DefaultConfig sample_env)
                        (with_paths ["bare.raml"%string])))))
       (input_paths
          (extend (DefaultConfig sample_env)
             (with_paths ["bare.raml"%string]))) = Ok listings /\
     In files listings /\ In file files /\
     raml2obj_parse sample_env file = Throw TypeError) \/
  (TypeError = TypeError /\
   exists parsed d n,
     parse_load sample_env sample_fs
       (extend (DefaultConfig sample_env) (with_paths ["bare.raml"%string]))
     = Ok parsed /\
     In d (relax
             (input_contentFilter
                (extend (DefaultConfig sample_env)
                   (with_paths ["bare.raml"%string]))) parsed) /\
     reachable d n /\ properties n = None /\ items n = None).
Proof.
  exact (@parse_rejects_for_three_reasons sample_env sample_fs
           (with_paths ["bare.raml"%string]) TypeError eq_refl).
Defined.

(** X18: the sort of parse is stable on names: for a consistent collation,
    the properties of a node that carry the same displayName stand, after
    the callback, in the order they had before.  Array.prototype.sort is
    the stable sort ECMAScript 2019 requires. *)
Theorem parse_sort_keeps_equal_names_in_order env n n1 name :
  consistent (localeCompare env) ->
  parse_callback env n = Ok n1 ->
  option_map (filter (named name)) (selected_properties n1)
  = option_map (filter (named name)) (selected_properties n).
Proof.
  intros Hcollation.
  assert (Hstable : forall ps,
             filter (named name) (array_sort (compare_properties env) ps)
             = filter (named name) ps).
  { intros ps. apply array_sort_stable. intros a b Ha Hb.
    apply jsstring_eqb_true in Ha, Hb. unfold compare_properties.
    rewrite Ha, Hb.
    destruct (Z_le_gt_dec (localeCompare env name name) 0) as [H|H];
      [exact H|].
    apply Z.gt_lt in H. now apply (cmp_total Hcollation). }
  unfold parse_callback, selected_properties.
  destruct n as [dn uid [props|] its rs ms rps bs ex]; simpl.
  - intros [= <-]; simpl. now rewrite Hstable.
  - destruct its as [[[props|]]|]; simpl; try discriminate;
      intros [= <-]; simpl; [now rewrite Hstable|reflexivity].
Qed.

Lemma parse_sort_keeps_equal_names_in_order_witness :
  exists n1,
    parse_callback sample_env duplicate_names_node = Ok n1 /\
    option_map (map prop_displayName) (properties n1)
    = Some [lit "a"; lit "b"; lit "b"] /\
    option_map (filter (named (lit "b"))) (selected_properties n1)
    = Some [Property (lit "b") (lit "1"); Property (lit "b") (lit "2")].
Proof.
  eexists. split; [vm_compute; reflexivity|]. split; [reflexivity|].
  etransitivity;
    [apply (@parse_sort_keeps_equal_names_in_order sample_env
              duplicate_names_node _ (lit "b") code_unit_compare_consistent
              eq_refl)
    |reflexivity].
Defined.
